(** * Pose evaluation engine: angle geometry, scoring and session summary

    A shallow embedding of [src/utils/angles.ts], [src/utils/scoring.ts] and
    the [completeLevel] callback of [src/components/ChallengeFlow.tsx].

    Numbers.  A JavaScript [number] is modelled as a real number ([R]):
    [+ - * /], [Math.abs], [Math.max], [Math.min], [Math.sqrt], [Math.acos]
    and [Math.PI] are the functions of the same name on [R].  [NaN], the
    infinities and rounding error are outside the model.  Every division
    of the modelled code is guarded by the code itself (a denominator is a
    defaulted tolerance, a positive total, a non-zero length or a non-zero
    magnitude), so the value [R] gives to [x / 0] is never used.

    Objects.  A [Record<string, number>] is modelled as an association list
    in insertion order: [Object.keys] and [Object.entries] enumerate it from
    the head, [o[k]] is [get] and [o[k] = v] is [set].  (JavaScript lists
    keys that are array indices first; the angle names are not of that
    form, and no statement below depends on the order of the keys.) *)

From Stdlib Require Import Reals Lra Lia List String Ascii ZArith Bool.
From Stdlib Require Import DecimalString.
From Stdlib Require Import Sorted Permutation.
Import ListNotations.
Open Scope R_scope.

(* ================================================================= *)
(** ** JavaScript primitives used by the sources *)

Module Js.

(** [Math.round]: the nearest integer, a tie going towards +infinity. *)
Definition round (v : R) : Z := Zfloor (v + / 2).

(** [a || d] for a possibly missing number [a]: [undefined] and [0] are
    falsy, every other real is truthy. *)
Definition or_else (a : option R) (d : R) : R :=
  match a with
  | Some v => if Req_dec_T v 0 then d else v
  | None => d
  end.

(** A default parameter value ([p: number = d]). *)
Definition default_arg (a : option R) (d : R) : R :=
  match a with
  | Some v => v
  | None => d
  end.

(** [ToIntegerOrInfinity] on a finite number: truncation towards zero. *)
Definition to_integer (v : R) : Z :=
  if Rlt_dec v 0 then (- Zfloor (- v))%Z else Zfloor v.

(** [l[i]] for an array [l]. *)
Definition index {A : Type} (l : list A) (i : Z) : option A :=
  if (i <? 0)%Z then None else nth_error l (Z.to_nat i).

(** [l.slice(0, e)]: a negative [e] counts from the end of the array. *)
Definition slice0 {A : Type} (l : list A) (e : R) : list A :=
  let len := Z.of_nat (List.length l) in
  let rel := to_integer e in
  let final := if (rel <? 0)%Z then Z.max (len + rel) 0 else Z.min rel len in
  firstn (Z.to_nat final) l.

(** [l.sort(cmp)]: the sort is stable, and [cmp a b > 0] puts [a] after
    [b].  Insertion from the right keeps equal elements in their order. *)
Fixpoint insert_sorted {A : Type} (cmp : A -> A -> R) (a : A) (l : list A)
  : list A :=
  match l with
  | [] => [a]
  | b :: l' =>
      if Rlt_dec 0 (cmp a b) then b :: insert_sorted cmp a l' else a :: l
  end.

Definition sort {A : Type} (cmp : A -> A -> R) (l : list A) : list A :=
  fold_right (insert_sorted cmp) [] l.

(** Objects with string keys. *)
Definition object (A : Type) : Type := list (string * A).

Fixpoint get {A : Type} (o : object A) (k : string) : option A :=
  match o with
  | [] => None
  | (k', v) :: o' => if String.eqb k' k then Some v else get o' k
  end.

Fixpoint set {A : Type} (o : object A) (k : string) (v : A) : object A :=
  match o with
  | [] => [(k, v)]
  | (k', v') :: o' =>
      if String.eqb k' k then (k', v) :: o' else (k', v') :: set o' k v
  end.

Definition keys {A : Type} (o : object A) : list string := map fst o.
Definition values {A : Type} (o : object A) : list A := map snd o.
Definition entries {A : Type} (o : object A) : list (string * A) := o.

(** [s.replace(/_/g, " ")]. *)
Fixpoint replace_underscores (s : string) : string :=
  match s with
  | EmptyString => EmptyString
  | String c s' =>
      String (if Ascii.eqb c "_" then " "%char else c) (replace_underscores s')
  end.

(** [s.replace(/angle/g, "")]: matches are found left to right and do not
    overlap; [skip] counts the characters of a match still to be dropped. *)
Fixpoint remove_angle_from (skip : nat) (s : string) : string :=
  match s with
  | EmptyString => EmptyString
  | String c s' =>
      match skip with
      | S n => remove_angle_from n s'
      | O =>
          if String.prefix "angle" s then remove_angle_from 4 s'
          else String c (remove_angle_from 0 s')
      end
  end.

Definition remove_angle (s : string) : string := remove_angle_from 0 s.

(** [s.trim()], on the ASCII white space characters. *)
Definition is_space (c : ascii) : bool :=
  let n := nat_of_ascii c in
  (Nat.eqb n 32 || (Nat.leb 9 n && Nat.leb n 13))%bool.

Fixpoint trim_start (s : string) : string :=
  match s with
  | EmptyString => EmptyString
  | String c s' => if is_space c then trim_start s' else s
  end.

Fixpoint trim_end (s : string) : string :=
  match s with
  | EmptyString => EmptyString
  | String c s' =>
      match trim_end s' with
      | EmptyString => if is_space c then EmptyString else String c EmptyString
      | t => String c t
      end
  end.

Definition trim (s : string) : string := trim_end (trim_start s).

(** The decimal text of an integer, as a template literal prints it;
    [None] stands for [NaN]. *)
Definition show_integer (n : option Z) : string :=
  match n with
  | Some v => NilZero.string_of_int (Z.to_int v)
  | None => "NaN"%string
  end.

End Js.

(* ================================================================= *)
(** ** [src/utils/angles.ts] *)

Module Angles.

Record Point3D : Type := { x : R; y : R; z : R }.

(** The angle in degrees at the vertex [jointB] of the rays towards
    [jointA] and [jointC]. *)
Definition computeAngle (jointA jointB jointC : Point3D) : R :=
  let vectorBA :=
    {| x := x jointA - x jointB;
       y := y jointA - y jointB;
       z := z jointA - z jointB |} in
  let vectorBC :=
    {| x := x jointC - x jointB;
       y := y jointC - y jointB;
       z := z jointC - z jointB |} in
  let dotProduct :=
    x vectorBA * x vectorBC + y vectorBA * y vectorBC
    + z vectorBA * z vectorBC in
  let magnitudeBA :=
    sqrt (x vectorBA ^ 2 + y vectorBA ^ 2 + z vectorBA ^ 2) in
  let magnitudeBC :=
    sqrt (x vectorBC ^ 2 + y vectorBC ^ 2 + z vectorBC ^ 2) in
  if Req_dec_T magnitudeBA 0 then 0
  else if Req_dec_T magnitudeBC 0 then 0
  else
    let cosine := dotProduct / (magnitudeBA * magnitudeBC) in
    let clampedCosine := Rmax (-1) (Rmin 1 cosine) in
    let angleRadians := acos clampedCosine in
    angleRadians * 180 / PI.

Definition symmetryScore (leftAngle rightAngle : R) : R :=
  let diff := Rabs (leftAngle - rightAngle) in
  let maxDiff := 180 in
  Rmax 0 (1 - diff / maxDiff).

(** [stabilityScore]: both [reduce] calls start from [0] and run from
    the first sample to the last. *)
Definition stabilityScore (angleTimeSeries : list R) : R :=
  if (List.length angleTimeSeries <? 2)%nat then 1
  else
    let mean :=
      fold_left (fun a b => a + b) angleTimeSeries 0
      / INR (List.length angleTimeSeries) in
    let variance :=
      fold_left (fun sum val => sum + (val - mean) ^ 2) angleTimeSeries 0
      / INR (List.length angleTimeSeries) in
    let stdDev := sqrt variance in
    let maxStdDev := 15 in
    Rmax 0 (1 - stdDev / maxStdDev).

(** MediaPipe Pose Landmarker indices. *)
Module PoseLandmarkIndices.
Definition NOSE : Z := 0.
Definition LEFT_EYE_INNER : Z := 1.
Definition LEFT_EYE : Z := 2.
Definition LEFT_EYE_OUTER : Z := 3.
Definition RIGHT_EYE_INNER : Z := 4.
Definition RIGHT_EYE : Z := 5.
Definition RIGHT_EYE_OUTER : Z := 6.
Definition LEFT_EAR : Z := 7.
Definition RIGHT_EAR : Z := 8.
Definition MOUTH_LEFT : Z := 9.
Definition MOUTH_RIGHT : Z := 10.
Definition LEFT_SHOULDER : Z := 11.
Definition RIGHT_SHOULDER : Z := 12.
Definition LEFT_ELBOW : Z := 13.
Definition RIGHT_ELBOW : Z := 14.
Definition LEFT_WRIST : Z := 15.
Definition RIGHT_WRIST : Z := 16.
Definition LEFT_PINKY : Z := 17.
Definition RIGHT_PINKY : Z := 18.
Definition LEFT_INDEX : Z := 19.
Definition RIGHT_INDEX : Z := 20.
Definition LEFT_THUMB : Z := 21.
Definition RIGHT_THUMB : Z := 22.
Definition LEFT_HIP : Z := 23.
Definition RIGHT_HIP : Z := 24.
Definition LEFT_KNEE : Z := 25.
Definition RIGHT_KNEE : Z := 26.
Definition LEFT_ANKLE : Z := 27.
Definition RIGHT_ANKLE : Z := 28.
Definition LEFT_HEEL : Z := 29.
Definition RIGHT_HEEL : Z := 30.
Definition LEFT_FOOT_INDEX : Z := 31.
Definition RIGHT_FOOT_INDEX : Z := 32.
End PoseLandmarkIndices.

(** [computeAngle(landmarks[a], landmarks[b], landmarks[c])]: an index
    outside the array gives [undefined], and reading its coordinates in
    [computeAngle] throws ([None]). *)
Definition computeAngleAt (landmarks : list Point3D) (a b c : Z)
  : option R :=
  match Js.index landmarks a, Js.index landmarks b, Js.index landmarks c with
  | Some jointA, Some jointB, Some jointC =>
      Some (computeAngle jointA jointB jointC)
  | _, _, _ => None
  end.

(** [angles.name = value], after which the function goes on; an
    exception raised so far, or by [value], ends it. *)
Definition assignAngle (angles : option (Js.object R)) (name : string)
    (value : option R) : option (Js.object R) :=
  match angles, value with
  | Some o, Some v => Some (Js.set o name v)
  | _, _ => None
  end.

Definition extractAnglesFromLandmarks (landmarks : list Point3D)
  : option (Js.object R) :=
  let angles := Some [] in
  let angles :=
    assignAngle angles "left_shoulder_angle"
      (computeAngleAt landmarks PoseLandmarkIndices.LEFT_WRIST
         PoseLandmarkIndices.LEFT_SHOULDER PoseLandmarkIndices.LEFT_HIP) in
  let angles :=
    assignAngle angles "right_shoulder_angle"
      (computeAngleAt landmarks PoseLandmarkIndices.RIGHT_WRIST
         PoseLandmarkIndices.RIGHT_SHOULDER PoseLandmarkIndices.RIGHT_HIP) in
  let angles :=
    assignAngle angles "left_elbow_angle"
      (computeAngleAt landmarks PoseLandmarkIndices.LEFT_SHOULDER
         PoseLandmarkIndices.LEFT_ELBOW PoseLandmarkIndices.LEFT_WRIST) in
  let angles :=
    assignAngle angles "right_elbow_angle"
      (computeAngleAt landmarks PoseLandmarkIndices.RIGHT_SHOULDER
         PoseLandmarkIndices.RIGHT_ELBOW PoseLandmarkIndices.RIGHT_WRIST) in
  let angles :=
    assignAngle angles "left_hip_angle"
      (computeAngleAt landmarks PoseLandmarkIndices.LEFT_SHOULDER
         PoseLandmarkIndices.LEFT_HIP PoseLandmarkIndices.LEFT_KNEE) in
  let angles :=
    assignAngle angles "right_hip_angle"
      (computeAngleAt landmarks PoseLandmarkIndices.RIGHT_SHOULDER
         PoseLandmarkIndices.RIGHT_HIP PoseLandmarkIndices.RIGHT_KNEE) in
  let angles :=
    assignAngle angles "left_knee_angle"
      (computeAngleAt landmarks PoseLandmarkIndices.LEFT_HIP
         PoseLandmarkIndices.LEFT_KNEE PoseLandmarkIndices.LEFT_ANKLE) in
  let angles :=
    assignAngle angles "right_knee_angle"
      (computeAngleAt landmarks PoseLandmarkIndices.RIGHT_HIP
         PoseLandmarkIndices.RIGHT_KNEE PoseLandmarkIndices.RIGHT_ANKLE) in
  angles.

End Angles.

(* ================================================================= *)
(** ** [src/utils/scoring.ts] *)

Module Scoring.

Definition PoseAngles : Type := Js.object R.
Definition PoseTolerances : Type := Js.object R.
Definition PoseWeights : Type := Js.object R.

Record FrameScore : Type :=
  { score : R; timestamp : R; angles : PoseAngles }.

(** The value returned by [similarityScore]. *)
Record Similarity : Type :=
  { similarity_score : R; similarity_deviations : Js.object R }.

(** The three variables the loop of [similarityScore] updates. *)
Record SimilarityLoop : Type :=
  { totalWeight : R; weightedSum : R; deviations : Js.object R }.

Definition similarityInit : SimilarityLoop :=
  {| totalWeight := 0; weightedSum := 0; deviations := [] |}.

(** [tolerances[angleName] || 30] and [weights[angleName] || 1]. *)
Definition toleranceOf (tolerances : PoseTolerances) (angleName : string) : R :=
  Js.or_else (Js.get tolerances angleName) 30.

Definition weightOf (weights : PoseWeights) (angleName : string) : R :=
  Js.or_else (Js.get weights angleName) 1.

(** [Math.max(0, 1 - diff / tolerance)]. *)
Definition angleScoreOf (diff tolerance : R) : R :=
  Rmax 0 (1 - diff / tolerance).

(** One iteration of the loop over [Object.keys(targetAngles)]. *)
Definition similarityStep
    (userAngles targetAngles : PoseAngles)
    (tolerances : PoseTolerances) (weights : PoseWeights)
    (st : SimilarityLoop) (angleName : string) : SimilarityLoop :=
  let userAngle := Js.get userAngles angleName in
  let targetAngle := Js.get targetAngles angleName in
  let tolerance := toleranceOf tolerances angleName in
  let weight := weightOf weights angleName in
  match userAngle, targetAngle with
  | Some userAngle, Some targetAngle =>
      let diff := Rabs (userAngle - targetAngle) in
      let angleScore := angleScoreOf diff tolerance in
      {| totalWeight := totalWeight st + weight;
         weightedSum := weightedSum st + angleScore * weight;
         deviations := Js.set (deviations st) angleName diff |}
  | _, _ => st
  end.

Definition similarityLoop
    (userAngles targetAngles : PoseAngles)
    (tolerances : PoseTolerances) (weights : PoseWeights)
    (angleNames : list string) (st : SimilarityLoop) : SimilarityLoop :=
  fold_left (similarityStep userAngles targetAngles tolerances weights)
    angleNames st.

Definition similarityScore
    (userAngles targetAngles : PoseAngles)
    (tolerances : PoseTolerances) (weights : PoseWeights) : Similarity :=
  let angleNames := Js.keys targetAngles in
  let st :=
    similarityLoop userAngles targetAngles tolerances weights
      angleNames similarityInit in
  let finalScore :=
    if Rlt_dec 0 (totalWeight st) then weightedSum st / totalWeight st
    else 0 in
  {| similarity_score := finalScore;
     similarity_deviations := deviations st |}.

(** [stabilityPenalty] defaults to [0.9]. *)
Definition computeSessionScore
    (frameScores : list FrameScore) (stabilityPenalty : option R) : R :=
  let stabilityPenalty := Js.default_arg stabilityPenalty (9 / 10) in
  if (List.length frameScores =? 0)%nat then 0
  else
    let scores := map score frameScores in
    let avgScore :=
      fold_left (fun a b => a + b) scores 0 / INR (List.length scores) in
    avgScore * stabilityPenalty * 100.

Inductive Grade : Type := Beginner | Intermediate | Advanced.

Definition scoreToGrade (score : R) : Grade :=
  if Rle_dec 80 score then Advanced
  else if Rle_dec 60 score then Intermediate
  else Beginner.

(** The hint pushed for one entry of the deviations that is not skipped.
    A missing target or user angle makes [diff] [NaN] ([None] here):
    [NaN > 0] is false and the text is built with [NaN]. *)
Definition hintFor (targetAngles userAngles : PoseAngles)
    (entry : string * R) : string :=
  let angleName := fst entry in
  let target := Js.get targetAngles angleName in
  let current := Js.get userAngles angleName in
  let diff :=
    match target, current with
    | Some target, Some current => Some (Js.round (target - current))
    | _, _ => None
    end in
  let jointLabel :=
    Js.trim (Js.remove_angle (Js.replace_underscores angleName)) in
  let amount := Js.show_integer (option_map Z.abs diff) in
  let opens :=
    match diff with
    | Some d => (0 <? d)%Z
    | None => false
    end in
  if opens
  then ("Open " ++ jointLabel ++ " by ≈" ++ amount ++ "°")%string
  else ("Close " ++ jointLabel ++ " by ≈" ++ amount ++ "°")%string.

(** [Object.entries(deviations).sort((a, b) => b[1] - a[1])
     .slice(0, maxHints)]. *)
Definition sortedDeviations (deviations : Js.object R) (maxHints : R)
  : list (string * R) :=
  Js.slice0
    (Js.sort (fun a b => snd b - snd a) (Js.entries deviations))
    maxHints.

(** One iteration of the loop over [sortedDeviations]; [hints.push] adds
    at the end. *)
Definition feedbackStep (targetAngles userAngles : PoseAngles)
    (hints : list string) (entry : string * R) : list string :=
  let deviation := snd entry in
  if Rlt_dec deviation 10 then hints
  else (hints ++ [hintFor targetAngles userAngles entry])%list.

(** [maxHints] defaults to [3]. *)
Definition generateFeedback
    (deviations : Js.object R) (targetAngles userAngles : PoseAngles)
    (maxHints : option R) : list string :=
  let maxHints := Js.default_arg maxHints 3 in
  fold_left (feedbackStep targetAngles userAngles)
    (sortedDeviations deviations maxHints) [].

Definition computeAccuracy (similarityScoreValue : R) : R :=
  IZR (Js.round (similarityScoreValue * 100)).

Definition pairs : list (string * string) :=
  [ ("left_shoulder_angle", "right_shoulder_angle");
    ("left_elbow_angle", "right_elbow_angle");
    ("left_hip_angle", "right_hip_angle");
    ("left_knee_angle", "right_knee_angle") ]%string.

(** One iteration of the loop of [computeSymmetry] on
    [(totalSymmetry, count)]. *)
Definition symmetryStep (userAngles : PoseAngles)
    (st : R * nat) (pair : string * string) : R * nat :=
  let '(totalSymmetry, count) := st in
  let '(left_, right_) := pair in
  match Js.get userAngles left_, Js.get userAngles right_ with
  | Some l, Some r =>
      let diff := Rabs (l - r) in
      let symmetry := Rmax 0 (1 - diff / 180) in
      (totalSymmetry + symmetry, S count)
  | _, _ => st
  end.

Definition computeSymmetry (userAngles : PoseAngles) : R :=
  let '(totalSymmetry, count) :=
    fold_left (symmetryStep userAngles) pairs (0, O) in
  if (0 <? count)%nat
  then IZR (Js.round (totalSymmetry / INR count * 100))
  else 0.

End Scoring.

(* ================================================================= *)
(** ** [src/components/ChallengeFlow.tsx]: hold completion *)

Module ChallengeFlow.

Import Scoring.

Record PoseData : Type :=
  { slug : string;
    name : string;
    difficulty : string;
    thumbnail : string;
    targetAngles : Js.object R;
    tolerances : Js.object R;
    weights : Js.object R;
    steps : list string;
    tips : list string;
    hold_seconds : R }.

Record SessionData : Type :=
  { accuracy : R;
    stability : R;
    symmetry : R;
    grade : Grade;
    feedback : list string }.

(** The state and refs of the component. *)
Record State : Type :=
  { currentLevel : nat;
    cameraActive : bool;
    isHolding : bool;
    countdown : R;
    holdProgress : R;
    liveSimilarity : R;
    showSummary : bool;
    frameScoresRef : list FrameScore;
    angleTimeSeriesRef : Js.object (list R);
    startTimeRef : R;
    sessionData : option SessionData }.

(** [completeLevel]: returns at once without a current pose; otherwise
    leaves the hold, stores the session data and shows the summary. *)
Definition completeLevel (currentPose : option PoseData) (st : State)
  : State :=
  match currentPose with
  | None => st
  | Some currentPose =>
      let frameScores := frameScoresRef st in
      let lastFrame :=
        Js.index frameScores (Z.of_nat (List.length frameScores) - 1) in
      let accuracy :=
        match lastFrame with
        | Some lastFrame => computeAccuracy (score lastFrame)
        | None => 0
        end in
      let symmetry :=
        match lastFrame with
        | Some lastFrame => computeSymmetry (angles lastFrame)
        | None => 0
        end in
      let allStabilities :=
        map Angles.stabilityScore (Js.values (angleTimeSeriesRef st)) in
      let avgStability :=
        if (0 <? List.length allStabilities)%nat
        then
          IZR (Js.round
                 (fold_left (fun a b => a + b) allStabilities 0
                  / INR (List.length allStabilities) * 100))
        else 0 in
      let sessionScore :=
        computeSessionScore frameScores (Some (avgStability / 100)) in
      let grade := scoreToGrade sessionScore in
      let feedback :=
        match lastFrame with
        | Some lastFrame =>
            generateFeedback
              (similarity_deviations
                 (similarityScore (angles lastFrame)
                    (targetAngles currentPose) (tolerances currentPose)
                    (weights currentPose)))
              (targetAngles currentPose) (angles lastFrame) None
        | None => []
        end in
      {| currentLevel := currentLevel st;
         cameraActive := cameraActive st;
         isHolding := false;
         countdown := countdown st;
         holdProgress := holdProgress st;
         liveSimilarity := liveSimilarity st;
         showSummary := true;
         frameScoresRef := frameScoresRef st;
         angleTimeSeriesRef := angleTimeSeriesRef st;
         startTimeRef := startTimeRef st;
         sessionData :=
           Some {| accuracy := accuracy;
                   stability := avgStability;
                   symmetry := symmetry;
                   grade := grade;
                   feedback := feedback |} |}
  end.

(** An entry of [challengeLevels]. *)
Record ChallengeLevel : Type :=
  { level : R;
    level_slug : string;
    level_name : string;
    level_difficulty : string }.

(** [poseLibrary.find(p => p.slug === challengeLevels[currentLevel]?.slug)]:
    past the last level the slug is [undefined] and no pose matches. *)
Definition currentPoseOf (challengeLevels : list ChallengeLevel)
    (poseLibrary : list PoseData) (currentLevel : nat) : option PoseData :=
  find (fun p =>
          match nth_error challengeLevels currentLevel with
          | Some l => String.eqb (slug p) (level_slug l)
          | None => false
          end)
    poseLibrary.

(** [currentPose?.hold_seconds || 30]. *)
Definition holdDurationOf (currentPose : option PoseData) : R :=
  Js.or_else (option_map hold_seconds currentPose) 30.

Definition resetLevel (st : State) : State :=
  {| currentLevel := currentLevel st;
     cameraActive := cameraActive st;
     isHolding := false;
     countdown := 3;
     holdProgress := 0;
     liveSimilarity := 0;
     showSummary := showSummary st;
     frameScoresRef := [];
     angleTimeSeriesRef := [];
     startTimeRef := 0;
     sessionData := sessionData st |}.

(** One iteration of the [forEach] over [Object.keys(angles)]: the series
    of the angle is created when missing, then the value is pushed. *)
Definition recordAngle (angles : Js.object R)
    (series : Js.object (list R)) (angleName : string)
  : Js.object (list R) :=
  let series :=
    match Js.get series angleName with
    | Some _ => series
    | None => Js.set series angleName []
    end in
  match Js.get series angleName, Js.get angles angleName with
  | Some s, Some v => Js.set series angleName (s ++ [v])%list
  | _, _ => series
  end.

(** [handlePoseDetected]; [stamp] and [now] are the values of the two
    calls of [Date.now()]. *)
Definition handlePoseDetected (currentPose : option PoseData)
    (stamp now : R) (angles : Js.object R) (st : State) : State :=
  if negb (isHolding st) then st
  else
    match currentPose with
    | None => st
    | Some pose =>
        let result :=
          similarityScore angles (targetAngles pose) (tolerances pose)
            (weights pose) in
        let score := similarity_score result in
        let holdDuration := holdDurationOf currentPose in
        let elapsed := now - startTimeRef st in
        let progress := Rmin 100 (elapsed / (holdDuration * 1000) * 100) in
        let st' :=
          {| currentLevel := currentLevel st;
             cameraActive := cameraActive st;
             isHolding := isHolding st;
             countdown := countdown st;
             holdProgress := progress;
             liveSimilarity := IZR (Js.round (score * 100));
             showSummary := showSummary st;
             frameScoresRef :=
               (frameScoresRef st
                ++ [{| Scoring.score := score;
                       timestamp := stamp;
                       Scoring.angles := angles |}])%list;
             angleTimeSeriesRef :=
               fold_left (recordAngle angles) (Js.keys angles)
                 (angleTimeSeriesRef st);
             startTimeRef := startTimeRef st;
             sessionData := sessionData st |} in
        if Rle_dec 100 progress then completeLevel currentPose st' else st'
    end.

Definition withLevel (st : State) (n : nat) (summary : bool) : State :=
  {| currentLevel := n;
     cameraActive := cameraActive st;
     isHolding := isHolding st;
     countdown := countdown st;
     holdProgress := holdProgress st;
     liveSimilarity := liveSimilarity st;
     showSummary := summary;
     frameScoresRef := frameScoresRef st;
     angleTimeSeriesRef := angleTimeSeriesRef st;
     startTimeRef := startTimeRef st;
     sessionData := sessionData st |}.

(** [handleNextLevel]: the boolean tells whether [onComplete] is called. *)
Definition handleNextLevel (challengeLevels : list ChallengeLevel)
    (st : State) : State * bool :=
  let st' := resetLevel (withLevel st (currentLevel st) false) in
  if (Z.of_nat (currentLevel st)
      <? Z.of_nat (List.length challengeLevels) - 1)%Z
  then (withLevel st' (currentLevel st' + 1) (showSummary st'), false)
  else (st', true).

Definition handleSkipLevel (challengeLevels : list ChallengeLevel)
    (st : State) : State :=
  let st' := resetLevel st in
  if (Z.of_nat (currentLevel st)
      <? Z.of_nat (List.length challengeLevels) - 1)%Z
  then withLevel st' (currentLevel st' + 1) (showSummary st')
  else st'.

End ChallengeFlow.

(* ================================================================= *)
(** ** The quantities the specification names *)

Module Spec.

Import Scoring.

(** The sum of a series. *)
Fixpoint total (l : list R) : R :=
  match l with
  | [] => 0
  | v :: l' => v + total l'
  end.

(** The arithmetic mean of a non-empty series. *)
Definition mean (l : list R) : R := total l / INR (List.length l).

(** Population variance and standard deviation. *)
Definition populationVariance (l : list R) : R :=
  mean (map (fun v => (v - mean l) ^ 2) l).

Definition populationStdDev (l : list R) : R :=
  sqrt (populationVariance l).

(** The symmetry [max(0, 1 - |left - right| / 180)] of a left/right pair
    both of whose sides are present; nothing for a pair with a missing
    side. *)
Definition pairSymmetry (userAngles : PoseAngles) (pair : string * string)
  : list R :=
  match Js.get userAngles (fst pair), Js.get userAngles (snd pair) with
  | Some l, Some r => [Rmax 0 (1 - Rabs (l - r) / 180)]
  | _, _ => []
  end.

Definition completePairSymmetries (userAngles : PoseAngles) : list R :=
  flat_map (pairSymmetry userAngles) pairs.

(** The symmetry percentage as the specification words it. *)
Definition symmetryPercent (userAngles : PoseAngles) : R :=
  match completePairSymmetries userAngles with
  | [] => 0
  | vs => IZR (Js.round (100 * mean vs))
  end.

(** An angle name is common when both mappings have a value for it. *)
Definition common (userAngles targetAngles : PoseAngles) (k : string)
  : Prop :=
  exists u t, Js.get userAngles k = Some u /\ Js.get targetAngles k = Some t.

(** The deviation is 0 for every common angle name. *)
Definition perfectMatch (userAngles targetAngles : PoseAngles) : Prop :=
  forall k u t,
    Js.get userAngles k = Some u -> Js.get targetAngles k = Some t ->
    Rabs (u - t) = 0.

(** No entry of a mapping is negative. *)
Definition nonNegative (m : Js.object R) : Prop :=
  forall k v, Js.get m k = Some v -> 0 <= v.

(** A deviation the feedback does not skip: not below 10 degrees. *)
Definition noticeable (entry : string * R) : bool :=
  if Rlt_dec (snd entry) 10 then false else true.

(** The entries the feedback keeps: the noticeable ones among the
    [maxHints] largest deviations. *)
Definition keptDeviations (deviations : Js.object R) (maxHints : R)
  : list (string * R) :=
  filter noticeable (sortedDeviations deviations maxHints).

(** Every explicit zero of a mapping replaced by [d]. *)
Definition zerosReplaced (d : R) (m : Js.object R) : Js.object R :=
  map (fun e : string * R =>
         (fst e, if Req_dec_T (snd e) 0 then d else snd e)) m.

(** Whether a mapping has a value for a name. *)
Definition has (m : Js.object R) (k : string) : bool :=
  match Js.get m k with
  | Some _ => true
  | None => false
  end.

(** The grades in increasing order. *)
Definition gradeRank (g : Grade) : nat :=
  match g with
  | Beginner => 0
  | Intermediate => 1
  | Advanced => 2
  end.

(** The frame scores are in [0, 1]. *)
Definition unitScores (frameScores : list FrameScore) : Prop :=
  forall f, In f frameScores -> 0 <= score f <= 1.

(** A list of entries in non-increasing order of deviation. *)
Definition descending (l : list (string * R)) : Prop :=
  StronglySorted (fun a b => snd b <= snd a) l.

(** The entries with a given deviation, in their order. *)
Definition withDeviation (d : R) (l : list (string * R))
  : list (string * R) :=
  filter (fun e => if Req_dec_T (snd e) d then true else false) l.

(** The eight angle names of the extractor, in the order they are set. *)
Definition extractedNames : list string :=
  [ "left_shoulder_angle"; "right_shoulder_angle";
    "left_elbow_angle"; "right_elbow_angle";
    "left_hip_angle"; "right_hip_angle";
    "left_knee_angle"; "right_knee_angle" ]%string.

(** The recorded series of an angle, empty when there is none. *)
Definition seriesOf (series : Js.object (list R)) (k : string) : list R :=
  match Js.get series k with
  | Some s => s
  | None => []
  end.

(** The per-angle score of a name, as the loop of [similarityScore]
    computes it for a common name. *)
Definition angleCredit (userAngles targetAngles : PoseAngles)
    (tolerances : PoseTolerances) (k : string) : R :=
  match Js.get userAngles k, Js.get targetAngles k with
  | Some u, Some t => angleScoreOf (Rabs (u - t)) (toleranceOf tolerances k)
  | _, _ => 0
  end.

(** Every extracted angle has as many recorded samples as there are
    frame scores. *)
Definition inStep (st : ChallengeFlow.State) : Prop :=
  forall k, In k extractedNames ->
    List.length (seriesOf (ChallengeFlow.angleTimeSeriesRef st) k)
    = List.length (ChallengeFlow.frameScoresRef st).

(** The two buttons that leave a level. *)
Inductive LevelAction : Type := NextLevel | SkipLevel.

Definition applyAction (challengeLevels : list ChallengeFlow.ChallengeLevel)
    (st : ChallengeFlow.State) (a : LevelAction) : ChallengeFlow.State :=
  match a with
  | NextLevel => fst (ChallengeFlow.handleNextLevel challengeLevels st)
  | SkipLevel => ChallengeFlow.handleSkipLevel challengeLevels st
  end.

(** The tolerance and the weight in force for a name: an entry that is
    missing or exactly 0 gives way to the default, 30 for a tolerance and
    1 for a weight. *)
Definition effectiveTolerance (tolerances : PoseTolerances) (k : string)
  : R :=
  match Js.get tolerances k with
  | Some v => if Req_dec_T v 0 then 30 else v
  | None => 30
  end.

Definition effectiveWeight (weights : PoseWeights) (k : string) : R :=
  match Js.get weights k with
  | Some v => if Req_dec_T v 0 then 1 else v
  | None => 1
  end.

(** The per-angle score [max(0, 1 - |user - target| / tolerance)] of a
    common name under the tolerance in force; 0 for any other name. *)
Definition creditInForce (userAngles targetAngles : PoseAngles)
    (tolerances : PoseTolerances) (k : string) : R :=
  match Js.get userAngles k, Js.get targetAngles k with
  | Some u, Some t =>
      Rmax 0 (1 - Rabs (u - t) / effectiveTolerance tolerances k)
  | _, _ => 0
  end.

End Spec.

(* ================================================================= *)
(** ** Concrete inputs used by the examples *)

Module Samples.

Import Scoring ChallengeFlow.

Definition threeDeviations : Js.object R :=
  [("a", 40); ("b", 30); ("c", 20)]%string.

Definition earlyFrame : FrameScore :=
  {| score := 0; timestamp := 1; angles := [] |}.

Definition finalFrame : FrameScore :=
  {| score := 1; timestamp := 2;
     angles := [("left_knee_angle", 170)]%string |}.

Definition holdingState (frames : list FrameScore) : State :=
  {| currentLevel := 0;
     cameraActive := true;
     isHolding := true;
     countdown := 0;
     holdProgress := 100;
     liveSimilarity := 0;
     showSummary := false;
     frameScoresRef := frames;
     angleTimeSeriesRef := [];
     startTimeRef := 0;
     sessionData := None |}.

Definition treePose : PoseData :=
  {| slug := "tree";
     name := "Tree";
     difficulty := "beginner";
     thumbnail := "tree.jpg";
     targetAngles := [("left_knee_angle", 170)]%string;
     tolerances := [];
     weights := [];
     steps := [];
     tips := [];
     hold_seconds := 30 |}.

Definition origin : Angles.Point3D :=
  {| Angles.x := 0; Angles.y := 0; Angles.z := 0 |}.

Definition standingLandmarks : list Angles.Point3D := repeat origin 33.

Definition twoLevels : list ChallengeLevel :=
  [ {| level := 1; level_slug := "tree"; level_name := "Tree";
       level_difficulty := "beginner" |};
    {| level := 2; level_slug := "chair"; level_name := "Chair";
       level_difficulty := "beginner" |} ]%string.

Definition eightAngles : Js.object R :=
  map (fun k => (k, 90)) Spec.extractedNames.

End Samples.

(* ================================================================= *)
(** ** Evaluating the model on concrete inputs *)

(** Decisions on reals do not reduce: each one met while evaluating is
    settled by linear arithmetic. *)
Ltac settle_decisions :=
  repeat match goal with
    | |- context [Rcase_abs ?a] => destruct (Rcase_abs a); try lra
    | |- context [Req_dec_T ?a ?b] => destruct (Req_dec_T a b); try lra
    | |- context [Rle_dec ?a ?b] => destruct (Rle_dec a b); try lra
    | |- context [Rlt_dec ?a ?b] => destruct (Rlt_dec a b); try lra
    end;
  try lra; try (field; lra).

Ltac run_similarity :=
  cbv [Scoring.similarityScore Scoring.similarityLoop Scoring.similarityStep
       Scoring.similarityInit Scoring.toleranceOf Scoring.weightOf
       Scoring.angleScoreOf Scoring.totalWeight Scoring.weightedSum
       Scoring.deviations Scoring.similarity_score
       Scoring.similarity_deviations
       Js.keys Js.get Js.set Js.or_else fold_left map fst snd
       String.eqb Ascii.eqb Bool.eqb Rabs Rmax];
  settle_decisions.

(** The number of elements [slice] keeps is computed, then the kept
    entries are filtered. *)
Ltac run_slice :=
  match goal with
  | |- context [firstn ?n _] =>
      let n' := eval vm_compute in n in change n with n'
  end;
  cbv [firstn filter Spec.noticeable snd].

(** The landmark indices the extractor reads. *)
Ltac unfold_indices :=
  unfold Angles.PoseLandmarkIndices.LEFT_SHOULDER,
    Angles.PoseLandmarkIndices.RIGHT_SHOULDER,
    Angles.PoseLandmarkIndices.LEFT_ELBOW,
    Angles.PoseLandmarkIndices.RIGHT_ELBOW,
    Angles.PoseLandmarkIndices.LEFT_WRIST,
    Angles.PoseLandmarkIndices.RIGHT_WRIST,
    Angles.PoseLandmarkIndices.LEFT_HIP,
    Angles.PoseLandmarkIndices.RIGHT_HIP,
    Angles.PoseLandmarkIndices.LEFT_KNEE,
    Angles.PoseLandmarkIndices.RIGHT_KNEE,
    Angles.PoseLandmarkIndices.LEFT_ANKLE,
    Angles.PoseLandmarkIndices.RIGHT_ANKLE.

(* ================================================================= *)
(** ** Auxiliary facts *)

Section Auxiliary.

(** [reduce((a, b) => a + b, a0)] adds the sum of the series to [a0]. *)
Lemma fold_left_plus_total (l : list R) (a : R) :
  fold_left (fun a b => a + b) l a = a + Spec.total l.
Proof.
  revert a; induction l as [|v l IH]; intros a; simpl.
  - lra.
  - rewrite IH; lra.
Qed.

Lemma fold_left_sq_total (m : R) (l : list R) (a : R) :
  fold_left (fun sum val => sum + (val - m) ^ 2) l a
  = a + Spec.total (map (fun v => (v - m) ^ 2) l).
Proof.
  revert a; induction l as [|v l IH]; intros a; simpl.
  - lra.
  - rewrite IH; simpl; lra.
Qed.

Lemma round_IZR (n : Z) : Js.round (IZR n) = n.
Proof. unfold Js.round; apply Zfloor_eq; lra. Qed.

Lemma sqrt_sq_nonneg (v : R) : 0 <= v -> sqrt (v * v) = v.
Proof. intros Hv; now apply sqrt_square. Qed.

Lemma get_set_same {A : Type} (o : Js.object A) (k : string) (v : A) :
  Js.get (Js.set o k v) k = Some v.
Proof.
  induction o as [|[k' v'] o IH]; simpl.
  - now rewrite String.eqb_refl.
  - destruct (String.eqb k' k) eqn:E; simpl; rewrite E; auto.
Qed.

Lemma get_set_other {A : Type} (o : Js.object A) (k k' : string) (v : A) :
  k <> k' -> Js.get (Js.set o k v) k' = Js.get o k'.
Proof.
  intros Hne; induction o as [|[k0 v0] o IH]; simpl.
  - destruct (String.eqb_spec k k'); congruence.
  - destruct (String.eqb_spec k0 k) as [->|Hk]; simpl.
    + destruct (String.eqb_spec k k'); congruence.
    + now rewrite IH.
Qed.

Lemma get_some_in_keys {A : Type} (o : Js.object A) (k : string) (v : A) :
  Js.get o k = Some v -> In k (Js.keys o).
Proof.
  induction o as [|[k' v'] o IH]; simpl; [discriminate|].
  destruct (String.eqb_spec k' k); auto.
Qed.

Lemma in_keys_get {A : Type} (o : Js.object A) (k : string) :
  In k (Js.keys o) -> exists v, Js.get o k = Some v.
Proof.
  induction o as [|[k' v'] o IH]; simpl; [tauto|].
  intros [->|Hin].
  - rewrite String.eqb_refl; eauto.
  - destruct (String.eqb k' k); eauto.
Qed.

End Auxiliary.

(* ================================================================= *)
(** ** Geometry *)

Section Geometry.

Import Angles.

Lemma degrees_range (a : R) : 0 <= a <= PI -> 0 <= a * 180 / PI <= 180.
Proof.
  intros [Ha0 Ha1].
  pose proof PI_RGT_0 as Hpi.
  assert (Hinv : 0 < / PI) by now apply Rinv_0_lt_compat.
  assert (Hone : PI * / PI = 1) by (apply Rinv_r; lra).
  unfold Rdiv; split.
  - apply Rmult_le_pos; [lra | lra].
  - replace 180 with (PI * / PI * 180) at 2 by (rewrite Hone; lra).
    replace (a * 180 * / PI) with (a * / PI * 180) by ring.
    apply Rmult_le_compat_r; [lra|].
    apply Rmult_le_compat_r; lra.
Qed.

Lemma magnitude_zero (p : Point3D) :
  sqrt ((x p - x p) ^ 2 + (y p - y p) ^ 2 + (z p - z p) ^ 2) = 0.
Proof.
  replace ((x p - x p) ^ 2 + (y p - y p) ^ 2 + (z p - z p) ^ 2) with 0
    by ring.
  apply sqrt_0.
Qed.

(** C2: the angle is in [0, 180] for all points, and it is exactly 0 when
    [jointA] or [jointC] coincides with the vertex [jointB]. *)
Theorem computeAngle_range (jointA jointB jointC : Point3D) :
  0 <= computeAngle jointA jointB jointC <= 180
  /\ (jointA = jointB \/ jointC = jointB ->
      computeAngle jointA jointB jointC = 0).
Proof.
  split.
  - unfold computeAngle; cbn [x y z].
    destruct (Req_dec_T _ 0); [lra|].
    destruct (Req_dec_T _ 0); [lra|].
    apply degrees_range, acos_bound.
  - intros [-> | ->]; unfold computeAngle; cbn [x y z].
    + rewrite magnitude_zero.
      destruct (Req_dec_T 0 0); [reflexivity | contradiction].
    + rewrite (magnitude_zero jointB).
      destruct (Req_dec_T _ 0); [reflexivity|].
      destruct (Req_dec_T 0 0); [reflexivity | contradiction].
Qed.

Lemma computeAngle_range_witness :
  computeAngle Samples.origin Samples.origin Samples.origin = 0.
Proof.
  exact (proj2 (computeAngle_range Samples.origin Samples.origin
                  Samples.origin) (or_introl eq_refl)).
Defined.

(** Two model checks: a right angle and a straight angle. *)
Example computeAngle_right :
  computeAngle {| x := 1; y := 0; z := 0 |} {| x := 0; y := 0; z := 0 |}
    {| x := 0; y := 2; z := 0 |} = 90.
Proof.
  unfold computeAngle; cbn [x y z].
  replace ((1 - 0) ^ 2 + (0 - 0) ^ 2 + (0 - 0) ^ 2) with (1 * 1) by ring.
  replace ((0 - 0) ^ 2 + (2 - 0) ^ 2 + (0 - 0) ^ 2) with (2 * 2) by ring.
  rewrite !sqrt_sq_nonneg by lra.
  destruct (Req_dec_T 1 0); [lra|].
  destruct (Req_dec_T 2 0); [lra|].
  replace (((1 - 0) * (0 - 0) + (0 - 0) * (2 - 0) + (0 - 0) * (0 - 0))
           / (1 * 2)) with 0 by field.
  rewrite Rmin_right, Rmax_right by lra.
  rewrite acos_0.
  pose proof PI_RGT_0; field; lra.
Qed.

Example computeAngle_straight :
  computeAngle {| x := 1; y := 0; z := 0 |} {| x := 0; y := 0; z := 0 |}
    {| x := -3; y := 0; z := 0 |} = 180.
Proof.
  unfold computeAngle; cbn [x y z].
  replace ((1 - 0) ^ 2 + (0 - 0) ^ 2 + (0 - 0) ^ 2) with (1 * 1) by ring.
  replace ((-3 - 0) ^ 2 + (0 - 0) ^ 2 + (0 - 0) ^ 2) with (3 * 3) by ring.
  rewrite !sqrt_sq_nonneg by lra.
  destruct (Req_dec_T 1 0); [lra|].
  destruct (Req_dec_T 3 0); [lra|].
  replace (((1 - 0) * (-3 - 0) + (0 - 0) * (0 - 0) + (0 - 0) * (0 - 0))
           / (1 * 3)) with (- (1)) by field.
  rewrite Rmin_right, Rmax_right by lra.
  rewrite acos_opp, acos_1.
  pose proof PI_RGT_0; field; lra.
Qed.

End Geometry.

(* ================================================================= *)
(** ** Stability *)

Section Stability.

Import Angles.

Lemma total_constant (c : R) (l : list R) :
  (forall v, In v l -> v = c) -> Spec.total l = INR (List.length l) * c.
Proof.
  induction l as [|v l IH]; intros Hc.
  - simpl; lra.
  - cbn [Spec.total List.length]; rewrite S_INR.
    rewrite IH by (intros w Hw; apply Hc; now right).
    rewrite (Hc v) by now left.
    lra.
Qed.

Lemma total_sq_constant (c : R) (l : list R) :
  (forall v, In v l -> v = c) ->
  Spec.total (map (fun v => (v - c) ^ 2) l) = 0.
Proof.
  induction l as [|v l IH]; intros Hc; cbn [map Spec.total].
  - reflexivity.
  - rewrite IH by (intros w Hw; apply Hc; now right).
    rewrite (Hc v) by now left.
    ring.
Qed.

Lemma stdDev_constant (c : R) (l : list R) :
  l <> [] -> (forall v, In v l -> v = c) -> Spec.populationStdDev l = 0.
Proof.
  intros Hne Hc.
  assert (Hlen : INR (List.length l) <> 0).
  { apply not_0_INR; destruct l; simpl; congruence. }
  assert (Hmean : Spec.mean l = c).
  { unfold Spec.mean; rewrite (total_constant c) by assumption.
    now field. }
  unfold Spec.populationStdDev, Spec.populationVariance.
  rewrite Hmean; unfold Spec.mean at 1.
  rewrite total_sq_constant by assumption.
  unfold Rdiv; rewrite Rmult_0_l; apply sqrt_0.
Qed.

Lemma stabilityScore_unfold (series : list R) :
  stabilityScore series
  = if (List.length series <? 2)%nat then 1
    else Rmax 0 (1 - Spec.populationStdDev series / 15).
Proof.
  unfold stabilityScore.
  destruct (List.length series <? 2)%nat; [reflexivity|].
  rewrite fold_left_sq_total, fold_left_plus_total, !Rplus_0_l.
  unfold Spec.populationStdDev, Spec.populationVariance, Spec.mean.
  now rewrite length_map.
Qed.

(** C4: with fewer than two samples the stability is 1; otherwise it is
    [max(0, 1 - sigma / 15)] for the population standard deviation
    [sigma], hence 1 on a constant series and 0 once [sigma >= 15]. *)
Theorem stabilityScore_spec (series : list R) :
  ((List.length series < 2)%nat -> stabilityScore series = 1)
  /\ ((2 <= List.length series)%nat ->
      stabilityScore series
      = Rmax 0 (1 - Spec.populationStdDev series / 15)
      /\ ((exists c, forall v, In v series -> v = c) ->
          stabilityScore series = 1)
      /\ (15 <= Spec.populationStdDev series ->
          stabilityScore series = 0)).
Proof.
  rewrite stabilityScore_unfold.
  split; intros Hlen.
  - apply Nat.ltb_lt in Hlen; now rewrite Hlen.
  - assert (Hge : (List.length series <? 2)%nat = false)
      by (apply Nat.ltb_ge; lia).
    rewrite Hge; repeat split.
    + intros [c Hc].
      assert (Hne : series <> []) by (destruct series; simpl in *; [lia | congruence]).
      rewrite (stdDev_constant c) by assumption.
      unfold Rdiv; rewrite Rmult_0_l, Rminus_0_r.
      apply Rmax_right; lra.
    + intros Hsd; apply Rmax_left; lra.
Qed.

Lemma stdDev_0_30 : Spec.populationStdDev [0; 30] = 15.
Proof.
  unfold Spec.populationStdDev, Spec.populationVariance, Spec.mean.
  cbn [map Spec.total List.length INR].
  replace (((0 - (0 + (30 + 0)) / (1 + 1)) ^ 2
            + ((30 - (0 + (30 + 0)) / (1 + 1)) ^ 2 + 0)) / (1 + 1))
    with (15 * 15) by field.
  apply sqrt_sq_nonneg; lra.
Qed.

Lemma stabilityScore_spec_witness :
  stabilityScore [] = 1
  /\ stabilityScore [42] = 1
  /\ stabilityScore [7; 7; 7] = 1
  /\ stabilityScore [0; 30] = 0.
Proof.
  split; [|split; [|split]].
  - apply (proj1 (stabilityScore_spec [])); simpl; lia.
  - apply (proj1 (stabilityScore_spec [42])); simpl; lia.
  - destruct (proj2 (stabilityScore_spec [7; 7; 7])) as (_ & Hconst & _);
      [simpl; lia|].
    apply Hconst.
    exists 7; simpl; intros v [H|[H|[H|[]]]]; now rewrite <- H.
  - destruct (proj2 (stabilityScore_spec [0; 30])) as (_ & _ & Hwide);
      [simpl; lia|].
    apply Hwide; rewrite stdDev_0_30; lra.
Defined.

End Stability.

(* ================================================================= *)
(** ** Similarity *)

Section SimilarityLoop.

Import Scoring.

Variables userAngles targetAngles : PoseAngles.
Variable tolerances : PoseTolerances.
Variable weights : PoseWeights.

Local Abbreviation step :=
  (similarityStep userAngles targetAngles tolerances weights).
Local Abbreviation loop :=
  (similarityLoop userAngles targetAngles tolerances weights).

Lemma loop_nil (st : SimilarityLoop) : loop [] st = st.
Proof. reflexivity. Qed.

Lemma loop_cons (k : string) (names : list string) (st : SimilarityLoop) :
  loop (k :: names) st = loop names (step st k).
Proof. reflexivity. Qed.

Lemma step_common (st : SimilarityLoop) (k : string) (u t : R) :
  Js.get userAngles k = Some u ->
  Js.get targetAngles k = Some t ->
  step st k
  = {| totalWeight := totalWeight st + weightOf weights k;
       weightedSum :=
         weightedSum st
         + angleScoreOf (Rabs (u - t)) (toleranceOf tolerances k)
           * weightOf weights k;
       deviations := Js.set (deviations st) k (Rabs (u - t)) |}.
Proof.
  intros Hu Ht; unfold similarityStep; now rewrite Hu, Ht.
Qed.

Lemma step_skipped (st : SimilarityLoop) (k : string) :
  Js.get userAngles k = None \/ Js.get targetAngles k = None ->
  step st k = st.
Proof.
  unfold similarityStep.
  intros [H | H]; rewrite H; [reflexivity|].
  now destruct (Js.get userAngles k).
Qed.

Lemma step_cases (st : SimilarityLoop) (k : string) :
  (exists u t, Js.get userAngles k = Some u
               /\ Js.get targetAngles k = Some t)
  \/ step st k = st.
Proof.
  destruct (Js.get userAngles k) as [u|] eqn:Hu;
    [destruct (Js.get targetAngles k) as [t|] eqn:Ht|].
  - left; eauto.
  - right; apply step_skipped; auto.
  - right; apply step_skipped; auto.
Qed.

(** *** Bounds *)

Lemma or_else_positive (a : option R) (d : R) :
  0 < d -> (forall v, a = Some v -> 0 <= v) -> 0 < Js.or_else a d.
Proof.
  intros Hd Ha; unfold Js.or_else.
  destruct a as [v|]; [|assumption].
  destruct (Req_dec_T v 0); [assumption|].
  specialize (Ha v eq_refl); lra.
Qed.

Lemma angleScoreOf_range (diff tolerance : R) :
  0 <= diff -> 0 < tolerance -> 0 <= angleScoreOf diff tolerance <= 1.
Proof.
  intros Hd Ht; unfold angleScoreOf; split.
  - apply Rmax_l.
  - apply Rmax_lub; [lra|].
    assert (0 <= diff / tolerance)
      by (apply Rmult_le_pos; [assumption | left; now apply Rinv_0_lt_compat]).
    lra.
Qed.

Lemma angleScoreOf_zero (tolerance : R) : angleScoreOf 0 tolerance = 1.
Proof.
  unfold angleScoreOf, Rdiv; rewrite Rmult_0_l, Rminus_0_r.
  apply Rmax_right; lra.
Qed.

Hypothesis tolerances_nonneg : Spec.nonNegative tolerances.
Hypothesis weights_nonneg : Spec.nonNegative weights.

Lemma toleranceOf_positive (k : string) : 0 < toleranceOf tolerances k.
Proof.
  apply or_else_positive; [lra|]; intros v; apply tolerances_nonneg.
Qed.

Lemma weightOf_positive (k : string) : 0 < weightOf weights k.
Proof.
  apply or_else_positive; [lra|]; intros v; apply weights_nonneg.
Qed.

Lemma loop_bounds (names : list string) (st : SimilarityLoop) :
  0 <= weightedSum st <= totalWeight st ->
  0 <= weightedSum (loop names st) <= totalWeight (loop names st).
Proof.
  revert st; induction names as [|k names IH]; intros st Hst.
  - assumption.
  - rewrite loop_cons; apply IH.
    destruct (step_cases st k) as [(u & t & Hu & Ht) | Hskip].
    + rewrite (step_common st k u t Hu Ht); cbn [weightedSum totalWeight].
      pose proof (weightOf_positive k) as Hw.
      pose proof (angleScoreOf_range (Rabs (u - t))
                    (toleranceOf tolerances k) (Rabs_pos _)
                    (toleranceOf_positive k)) as Hs.
      nra.
    + now rewrite Hskip.
Qed.

Lemma loop_totalWeight_mono (names : list string) (st : SimilarityLoop) :
  totalWeight st <= totalWeight (loop names st).
Proof.
  revert st; induction names as [|k names IH]; intros st.
  - apply Rle_refl.
  - rewrite loop_cons.
    apply Rle_trans with (totalWeight (step st k)); [|apply IH].
    destruct (step_cases st k) as [(u & t & Hu & Ht) | Hskip].
    + rewrite (step_common st k u t Hu Ht); cbn [totalWeight].
      pose proof (weightOf_positive k); lra.
    + rewrite Hskip; apply Rle_refl.
Qed.

Lemma loop_totalWeight_grows
    (names : list string) (st : SimilarityLoop) (k : string) :
  In k names -> Spec.common userAngles targetAngles k ->
  totalWeight st < totalWeight (loop names st).
Proof.
  intros Hin (u & t & Hu & Ht).
  revert st; induction names as [|k' names IH]; intros st; [destruct Hin|].
  rewrite loop_cons.
  destruct Hin as [-> | Hin].
  - apply Rlt_le_trans with (totalWeight (step st k));
      [|apply loop_totalWeight_mono].
    rewrite (step_common st k u t Hu Ht); cbn [totalWeight].
    pose proof (weightOf_positive k); lra.
  - apply Rle_lt_trans with (totalWeight (step st k')); [|now apply IH].
    apply (loop_totalWeight_mono [k'] st).
Qed.

End SimilarityLoop.

Section SimilarityDeviations.

Import Scoring.

Variables userAngles targetAngles : PoseAngles.
Variable tolerances : PoseTolerances.
Variable weights : PoseWeights.

Local Abbreviation step :=
  (similarityStep userAngles targetAngles tolerances weights).
Local Abbreviation loop :=
  (similarityLoop userAngles targetAngles tolerances weights).

Lemma step_deviations_other (st : SimilarityLoop) (k k' : string) :
  k' <> k ->
  Js.get (deviations (step st k')) k = Js.get (deviations st) k.
Proof.
  intros Hne.
  destruct (step_cases userAngles targetAngles tolerances weights st k')
    as [(u & t & Hu & Ht) | Hskip].
  - rewrite (step_common _ _ _ _ st k' u t Hu Ht).
    cbn [deviations]; now apply get_set_other.
  - now rewrite Hskip.
Qed.

Lemma loop_deviations_untouched
    (names : list string) (st : SimilarityLoop) (k : string) :
  ~ In k names ->
  Js.get (deviations (loop names st)) k = Js.get (deviations st) k.
Proof.
  revert st; induction names as [|k' names IH]; intros st Hnin.
  - reflexivity.
  - rewrite loop_cons.
    rewrite IH by (intro; apply Hnin; now right).
    apply step_deviations_other; intros ->; apply Hnin; now left.
Qed.

Lemma loop_deviations_missing
    (names : list string) (st : SimilarityLoop) (k : string) :
  Js.get userAngles k = None \/ Js.get targetAngles k = None ->
  Js.get (deviations (loop names st)) k = Js.get (deviations st) k.
Proof.
  intros Hmiss; revert st; induction names as [|k' names IH]; intros st.
  - reflexivity.
  - rewrite loop_cons.
    rewrite IH.
    destruct (string_dec k' k) as [-> | Hne].
    + now rewrite step_skipped.
    + now apply step_deviations_other.
Qed.

Lemma loop_deviations_recorded
    (names : list string) (st : SimilarityLoop) (k : string) (u t : R) :
  In k names ->
  Js.get userAngles k = Some u -> Js.get targetAngles k = Some t ->
  Js.get (deviations (loop names st)) k = Some (Rabs (u - t)).
Proof.
  intros Hin Hu Ht; revert st.
  induction names as [|k' names IH]; intros st; [destruct Hin|].
  rewrite loop_cons.
  destruct (in_dec string_dec k names) as [Hin' | Hnin].
  - now apply IH.
  - destruct Hin as [-> | Hin]; [|contradiction].
    rewrite loop_deviations_untouched by assumption.
    rewrite (step_common _ _ _ _ st k u t Hu Ht).
    cbn [deviations]; apply get_set_same.
Qed.

Lemma loop_perfect (names : list string) (st : SimilarityLoop) :
  Spec.perfectMatch userAngles targetAngles ->
  weightedSum st = totalWeight st ->
  weightedSum (loop names st) = totalWeight (loop names st).
Proof.
  intros Hperfect; revert st.
  induction names as [|k names IH]; intros st Hst; [assumption|].
  rewrite loop_cons.
  apply IH.
  destruct (step_cases userAngles targetAngles tolerances weights st k)
    as [(u & t & Hu & Ht) | Hskip].
  - rewrite (step_common _ _ _ _ st k u t Hu Ht).
    cbn [weightedSum totalWeight].
    rewrite (Hperfect k u t Hu Ht), angleScoreOf_zero, Hst; ring.
  - now rewrite Hskip.
Qed.

End SimilarityDeviations.

Section Defaults.

Import Scoring.

Lemma get_zerosReplaced (d : R) (m : Js.object R) (k : string) :
  Js.get (Spec.zerosReplaced d m) k
  = option_map (fun v => if Req_dec_T v 0 then d else v) (Js.get m k).
Proof.
  induction m as [|[k' v] m IH]; simpl; [reflexivity|].
  destruct (String.eqb k' k); [reflexivity | assumption].
Qed.

Lemma or_else_zerosReplaced (d : R) (m : Js.object R) (k : string) :
  Js.or_else (Js.get (Spec.zerosReplaced d m) k) d
  = Js.or_else (Js.get m k) d.
Proof.
  rewrite get_zerosReplaced.
  destruct (Js.get m k) as [v|]; simpl; [|reflexivity].
  destruct (Req_dec_T v 0) as [Hz | Hnz].
  - now destruct (Req_dec_T d 0).
  - now destruct (Req_dec_T v 0).
Qed.

Lemma similarityStep_zerosReplaced
    (userAngles targetAngles : PoseAngles)
    (tolerances : PoseTolerances) (weights : PoseWeights)
    (st : SimilarityLoop) (k : string) :
  similarityStep userAngles targetAngles
    (Spec.zerosReplaced 30 tolerances) (Spec.zerosReplaced 1 weights) st k
  = similarityStep userAngles targetAngles tolerances weights st k.
Proof.
  unfold similarityStep, toleranceOf, weightOf.
  now rewrite !or_else_zerosReplaced.
Qed.

Lemma similarityLoop_zerosReplaced
    (userAngles targetAngles : PoseAngles)
    (tolerances : PoseTolerances) (weights : PoseWeights)
    (names : list string) (st : SimilarityLoop) :
  similarityLoop userAngles targetAngles
    (Spec.zerosReplaced 30 tolerances) (Spec.zerosReplaced 1 weights)
    names st
  = similarityLoop userAngles targetAngles tolerances weights names st.
Proof.
  revert st; induction names as [|k names IH]; intros st; [reflexivity|].
  unfold similarityLoop in *; cbn [fold_left].
  now rewrite similarityStep_zerosReplaced, IH.
Qed.

End Defaults.

Section SimilarityClaims.

Import Scoring.

Lemma nonNegative_nil : Spec.nonNegative [].
Proof. intros k v; discriminate. Qed.

Lemma nonNegative_single (k : string) (v : R) :
  0 <= v -> Spec.nonNegative [(k, v)].
Proof.
  intros Hv k' v'; cbn [Js.get].
  destruct (String.eqb k k'); [|discriminate].
  now intros [= <-].
Qed.

(** C1, as the claim states it, fails: a negative tolerance or a negative
    weight takes the score out of [0, 1]. *)
Lemma similarityScore_unit_interval_counterexample :
  similarity_score
    (similarityScore [("a", 60)]%string [("a", 0)]%string
       [("a", -30)]%string []) = 3
  /\ similarity_score
       (similarityScore [("a", 0); ("b", 100)]%string
          [("a", 0); ("b", 0)]%string []
          [("a", 2); ("b", -1)]%string) = 2.
Proof. split; run_similarity. Qed.

(** C1 (amended): when no tolerance and no weight is negative, the score
    returned by [similarityScore] lies in [0, 1]. *)
Theorem similarityScore_unit_interval
    (userAngles targetAngles : PoseAngles)
    (tolerances : PoseTolerances) (weights : PoseWeights) :
  Spec.nonNegative tolerances -> Spec.nonNegative weights ->
  0 <= similarity_score
         (similarityScore userAngles targetAngles tolerances weights)
    <= 1.
Proof.
  intros Htol Hw; unfold similarityScore; cbn [similarity_score].
  pose proof (loop_bounds userAngles targetAngles tolerances weights
                Htol Hw (Js.keys targetAngles) similarityInit) as Hb.
  cbv beta zeta in Hb.
  destruct (Rlt_dec 0 _) as [Hpos | _]; [|lra].
  assert (Hinit : 0 <= weightedSum similarityInit
                  <= totalWeight similarityInit) by (simpl; lra).
  specialize (Hb Hinit).
  set (st := similarityLoop _ _ _ _ _ _) in *.
  assert (Hinv : 0 < / totalWeight st) by now apply Rinv_0_lt_compat.
  assert (Hone : totalWeight st * / totalWeight st = 1)
    by (apply Rinv_r; lra).
  unfold Rdiv; split; [apply Rmult_le_pos; lra|].
  rewrite <- Hone; apply Rmult_le_compat_r; lra.
Qed.

Lemma similarityScore_unit_interval_witness :
  0 <= similarity_score
         (similarityScore [("a", 60)]%string [("a", 0)]%string
            [("a", 30)]%string [("a", 2)]%string)
    <= 1.
Proof.
  apply similarityScore_unit_interval;
    apply nonNegative_single; lra.
Defined.

(** C3, as the claim states it, fails: when no angle name is common (no
    angle detected), or when the weights of the common angles do not add
    up to a positive total, every common deviation is 0 and the score
    is 0. *)
Lemma similarityScore_perfect_counterexample :
  (Spec.perfectMatch [] [("left_elbow_angle", 90)]%string
   /\ similarity_score
        (similarityScore [] [("left_elbow_angle", 90)]%string [] []) = 0)
  /\ (Spec.perfectMatch [("a", 10)]%string [("a", 10)]%string
      /\ similarity_score
           (similarityScore [("a", 10)]%string [("a", 10)]%string []
              [("a", -1)]%string) = 0).
Proof.
  split; (split; [|run_similarity]).
  - intros k u t; discriminate.
  - intros k u t; cbn [Js.get].
    destruct (String.eqb "a" k); [|discriminate].
    intros [= <-] [= <-].
    replace (10 - 10) with 0 by ring; apply Rabs_R0.
Qed.

(** C3 (amended): when the deviation is 0 for every common angle name, at
    least one angle name is common and no weight is negative, the score
    is 1. *)
Theorem similarityScore_perfect
    (userAngles targetAngles : PoseAngles)
    (tolerances : PoseTolerances) (weights : PoseWeights) :
  Spec.perfectMatch userAngles targetAngles ->
  (exists k, Spec.common userAngles targetAngles k) ->
  Spec.nonNegative weights ->
  similarity_score
    (similarityScore userAngles targetAngles tolerances weights) = 1.
Proof.
  intros Hperfect [k Hk] Hw; unfold similarityScore; cbn [similarity_score].
  assert (Hin : In k (Js.keys targetAngles)).
  { destruct Hk as (u & t & _ & Ht); eapply get_some_in_keys; eassumption. }
  pose proof (loop_totalWeight_grows userAngles targetAngles tolerances
                weights Hw (Js.keys targetAngles) similarityInit k Hin Hk)
    as Hgrow.
  pose proof (loop_perfect userAngles targetAngles tolerances weights
                (Js.keys targetAngles) similarityInit Hperfect eq_refl)
    as Heq.
  cbv beta zeta in Hgrow, Heq; cbn [totalWeight similarityInit] in Hgrow.
  destruct (Rlt_dec 0 _) as [Hpos | Hneg]; [|contradiction].
  rewrite Heq; field; lra.
Qed.

Lemma similarityScore_perfect_witness :
  similarity_score
    (similarityScore [("left_knee_angle", 170)]%string
       [("left_knee_angle", 170)]%string [] []) = 1.
Proof.
  apply similarityScore_perfect.
  - intros k u t; cbn [Js.get].
    destruct (String.eqb "left_knee_angle" k); [|discriminate].
    intros [= <-] [= <-].
    replace (170 - 170) with 0 by ring; apply Rabs_R0.
  - exists "left_knee_angle"%string, 170, 170; split; reflexivity.
  - apply nonNegative_nil.
Defined.

(** C8: the deviations returned by [similarityScore] have an entry for an
    angle name exactly when the name is in both the target and the user
    mapping, and the entry is [|user - target|], whatever the tolerances
    and weights are. *)
Theorem similarityScore_deviations
    (userAngles targetAngles : PoseAngles)
    (tolerances : PoseTolerances) (weights : PoseWeights) (k : string) :
  let result :=
    similarityScore userAngles targetAngles tolerances weights in
  Js.get (similarity_deviations result) k
  = match Js.get targetAngles k, Js.get userAngles k with
    | Some t, Some u => Some (Rabs (u - t))
    | _, _ => None
    end
  /\ (In k (Js.keys (similarity_deviations result))
      <-> Spec.common userAngles targetAngles k).
Proof.
  intros result.
  assert (Hget :
    Js.get (similarity_deviations result) k
    = match Js.get targetAngles k, Js.get userAngles k with
      | Some t, Some u => Some (Rabs (u - t))
      | _, _ => None
      end).
  { unfold result, similarityScore; cbn [similarity_deviations].
    destruct (Js.get targetAngles k) as [t|] eqn:Ht;
      [destruct (Js.get userAngles k) as [u|] eqn:Hu|].
    - apply loop_deviations_recorded; try assumption.
      eapply get_some_in_keys; eassumption.
    - now rewrite loop_deviations_missing by auto.
    - now rewrite loop_deviations_missing by auto. }
  split; [exact Hget|].
  split.
  - intros Hin; apply in_keys_get in Hin as [d Hd].
    rewrite Hget in Hd; unfold Spec.common.
    destruct (Js.get targetAngles k) as [t|]; [|discriminate].
    destruct (Js.get userAngles k) as [u|]; [|discriminate].
    eauto.
  - intros (u & t & Hu & Ht).
    rewrite Hu, Ht in Hget.
    eapply get_some_in_keys; eassumption.
Qed.

Lemma similarityScore_deviations_witness :
  Js.get
    (similarity_deviations
       (similarityScore [("a", 10); ("c", 5)]%string
          [("a", 50); ("b", 90)]%string [] [])) "a"
  = Some (Rabs (10 - 50))
  /\ Js.get
       (similarity_deviations
          (similarityScore [("a", 10); ("c", 5)]%string
             [("a", 50); ("b", 90)]%string [] [])) "b"
     = None.
Proof.
  split.
  - exact (proj1 (similarityScore_deviations [("a", 10); ("c", 5)]%string
                    [("a", 50); ("b", 90)]%string [] [] "a")).
  - exact (proj1 (similarityScore_deviations [("a", 10); ("c", 5)]%string
                    [("a", 50); ("b", 90)]%string [] [] "b")).
Defined.

(** Model checks on whole runs: weight 0 and tolerance 0 behave as 1 and
    30. *)
Example similarityScore_zero_weight_counts :
  similarity_score
    (similarityScore [("a", 10); ("b", 100)]%string
       [("a", 10); ("b", 0)]%string [] [("a", 0)]%string) = 1 / 2.
Proof. run_similarity. Qed.

Example similarityScore_zero_tolerance_is_30 :
  similarity_score
    (similarityScore [("a", 15)]%string [("a", 0)]%string
       [("a", 0)]%string []) = 1 / 2.
Proof. run_similarity. Qed.

End SimilarityClaims.

(* ================================================================= *)
(** ** Session score and symmetry *)

Section Session.

Import Scoring.

(** C5: the session score is 0 on the empty sequence and otherwise the
    mean of the frame scores times the stability factor times 100; so
    it is 0 for [[]], 100 for one frame of score 1 with factor 1 and 40
    for one frame of score 0.5 with factor 0.8. *)
Theorem computeSessionScore_spec
    (frameScores : list FrameScore) (stabilityFactor : R)
    (timestamp : R) (angles : PoseAngles) :
  computeSessionScore frameScores (Some stabilityFactor)
  = match frameScores with
    | [] => 0
    | _ => Spec.mean (map score frameScores) * stabilityFactor * 100
    end
  /\ computeSessionScore [] (Some stabilityFactor) = 0
  /\ computeSessionScore
       [{| score := 1; timestamp := timestamp; angles := angles |}]
       (Some 1) = 100
  /\ computeSessionScore
       [{| score := 1 / 2; timestamp := timestamp; angles := angles |}]
       (Some (8 / 10)) = 40.
Proof.
  split; [|split; [|split]].
  - unfold computeSessionScore, Js.default_arg, Spec.mean.
    destruct frameScores as [|f fs]; [reflexivity|].
    cbn [List.length Nat.eqb].
    now rewrite fold_left_plus_total, Rplus_0_l.
  - reflexivity.
  - unfold computeSessionScore; cbn; field.
  - unfold computeSessionScore; cbn; field.
Qed.

(** *** Symmetry *)

Lemma symmetryStep_pairSymmetry
    (userAngles : PoseAngles) (tot : R) (cnt : nat)
    (pair : string * string) :
  symmetryStep userAngles (tot, cnt) pair
  = (tot + Spec.total (Spec.pairSymmetry userAngles pair),
     (cnt + List.length (Spec.pairSymmetry userAngles pair))%nat).
Proof.
  unfold symmetryStep, Spec.pairSymmetry; destruct pair as [l r].
  cbn [fst snd].
  destruct (Js.get userAngles l) as [a|];
    [destruct (Js.get userAngles r) as [b|]|];
    cbn [Spec.total List.length]; f_equal; try lra; lia.
Qed.

Lemma total_app (l1 l2 : list R) :
  Spec.total (l1 ++ l2) = Spec.total l1 + Spec.total l2.
Proof.
  induction l1 as [|v l1 IH]; simpl; [lra | rewrite IH; lra].
Qed.

Lemma symmetry_loop
    (userAngles : PoseAngles) (ps : list (string * string))
    (tot : R) (cnt : nat) :
  fold_left (symmetryStep userAngles) ps (tot, cnt)
  = (tot + Spec.total (flat_map (Spec.pairSymmetry userAngles) ps),
     (cnt + List.length (flat_map (Spec.pairSymmetry userAngles) ps))%nat).
Proof.
  revert tot cnt; induction ps as [|p ps IH]; intros tot cnt.
  - simpl; f_equal; [lra | lia].
  - cbn [fold_left flat_map].
    rewrite symmetryStep_pairSymmetry, IH, total_app, length_app.
    f_equal; [lra | lia].
Qed.

Lemma computeSymmetry_refines (userAngles : PoseAngles) :
  computeSymmetry userAngles = Spec.symmetryPercent userAngles.
Proof.
  unfold computeSymmetry, Spec.symmetryPercent, Spec.completePairSymmetries.
  rewrite symmetry_loop.
  destruct (flat_map _ pairs) as [|v vs] eqn:E; [reflexivity|].
  cbn [List.length Nat.add Nat.ltb Nat.leb].
  unfold Spec.mean; rewrite Rplus_0_l, (Rmult_comm 100).
  reflexivity.
Qed.




(** A model check with one incomplete pair and one asymmetric pair:
    the mean is taken over the two complete pairs only. *)
Example computeSymmetry_partial :
  computeSymmetry
    [("left_elbow_angle", 170); ("right_elbow_angle", 80);
     ("left_knee_angle", 60); ("right_knee_angle", 60);
     ("left_hip_angle", 10)]%string = 75.
Proof.
  rewrite computeSymmetry_refines.
  unfold Spec.symmetryPercent, Spec.completePairSymmetries, Spec.mean.
  cbv [flat_map pairs Spec.pairSymmetry Js.get fst snd String.eqb
       Ascii.eqb Bool.eqb app Spec.total List.length INR].
  replace (170 - 80) with 90 by ring.
  replace (60 - 60) with 0 by ring.
  rewrite Rabs_R0, (Rabs_right 90) by lra.
  rewrite !Rmax_right by lra.
  replace (100 * ((1 - 90 / 180 + (1 - 0 / 180 + 0)) / (1 + 1)))
    with (IZR 75) by field.
  now rewrite round_IZR.
Qed.

End Session.

(* ================================================================= *)
(** ** Feedback *)

Section Feedback.

Import Scoring Samples.

Lemma in_firstn {A : Type} (n : nat) (l : list A) (a : A) :
  In a (firstn n l) -> In a l.
Proof.
  revert l; induction n as [|n IH]; intros [|b l]; simpl; try tauto.
  intros [-> | Hin]; auto.
Qed.

Lemma in_insert_sorted {A : Type} (cmp : A -> A -> R) (a e : A)
    (l : list A) :
  In e (Js.insert_sorted cmp a l) -> e = a \/ In e l.
Proof.
  induction l as [|b l IH]; simpl.
  - intros [<- | []]; now left.
  - destruct (Rlt_dec 0 (cmp a b)); simpl.
    + intros [<- | Hin]; [right; now left|].
      destruct (IH Hin); auto.
    + intros [<- | Hin]; auto.
Qed.

Lemma in_sort {A : Type} (cmp : A -> A -> R) (e : A) (l : list A) :
  In e (Js.sort cmp l) -> In e l.
Proof.
  unfold Js.sort; induction l as [|a l IH]; simpl; [tauto|].
  intros Hin; apply in_insert_sorted in Hin as [-> | Hin]; auto.
Qed.

Lemma in_slice0 {A : Type} (l : list A) (e : R) (a : A) :
  In a (Js.slice0 l e) -> In a l.
Proof. apply in_firstn. Qed.

Lemma to_integer_nonneg (e : R) :
  0 <= e -> (0 <= Js.to_integer e)%Z /\ IZR (Js.to_integer e) <= e.
Proof.
  intros He; unfold Js.to_integer.
  destruct (Rlt_dec e 0); [lra|].
  split; [now apply Zfloor_lub | apply Zfloor_bound].
Qed.

Lemma length_slice0 {A : Type} (l : list A) (e : R) :
  0 <= e -> INR (List.length (Js.slice0 l e)) <= e.
Proof.
  intros He; destruct (to_integer_nonneg e He) as [Hpos Hle].
  unfold Js.slice0.
  destruct (Z.ltb_spec (Js.to_integer e) 0) as [Hneg | _]; [lia|].
  apply Rle_trans with (IZR (Js.to_integer e)); [|assumption].
  rewrite INR_IZR_INZ; apply IZR_le.
  pose proof (firstn_le_length
                (Z.to_nat (Z.min (Js.to_integer e)
                                 (Z.of_nat (List.length l)))) l).
  lia.
Qed.

(** The loop pushes one hint per noticeable entry, in order. *)
Lemma feedback_loop (targetAngles userAngles : PoseAngles)
    (l : list (string * R)) (hints : list string) :
  fold_left (feedbackStep targetAngles userAngles) l hints
  = (hints
     ++ map (hintFor targetAngles userAngles) (filter Spec.noticeable l))%list.
Proof.
  revert hints; induction l as [|e l IH]; intros hints.
  - simpl; now rewrite app_nil_r.
  - cbn [fold_left filter]; rewrite IH.
    unfold feedbackStep, Spec.noticeable.
    destruct (Rlt_dec (snd e) 10); [reflexivity|].
    cbn [map]; now rewrite <- app_assoc.
Qed.

Lemma generateFeedback_kept
    (deviations : Js.object R) (targetAngles userAngles : PoseAngles)
    (maxHints : R) :
  generateFeedback deviations targetAngles userAngles (Some maxHints)
  = map (hintFor targetAngles userAngles)
      (Spec.keptDeviations deviations maxHints).
Proof.
  unfold generateFeedback, Spec.keptDeviations, Js.default_arg.
  now rewrite feedback_loop.
Qed.

Lemma to_integer_minus_one : Js.to_integer (-1) = (-1)%Z.
Proof.
  unfold Js.to_integer; destruct (Rlt_dec (-1) 0); [|lra].
  replace (- -1) with (IZR 1) by ring.
  now rewrite ZfloorZ.
Qed.

Lemma to_integer_three : Js.to_integer 3 = 3%Z.
Proof.
  unfold Js.to_integer; destruct (Rlt_dec 3 0); [lra|].
  apply ZfloorZ.
Qed.

(** C7, as the claim states it, fails: [slice(0, -1)] drops the last
    entry only, so [maxHints = -1] on three large deviations gives two
    hints. *)
Lemma generateFeedback_bound_counterexample :
  List.length (generateFeedback threeDeviations [] [] (Some (-1))) = 2%nat
  /\ ~ INR (List.length
              (generateFeedback threeDeviations [] [] (Some (-1)))) <= -1.
Proof.
  assert (Hlen :
    List.length (generateFeedback threeDeviations [] [] (Some (-1)))
    = 2%nat).
  { rewrite generateFeedback_kept, length_map.
    unfold Spec.keptDeviations, sortedDeviations, Js.slice0.
    rewrite to_integer_minus_one.
    cbv [threeDeviations Js.entries Js.sort fold_right Js.insert_sorted
         snd List.length].
    settle_decisions.
    run_slice; settle_decisions.
    reflexivity. }
  split; [exact Hlen|].
  rewrite Hlen; simpl; lra.
Qed.

(** C7 (amended): for a non-negative [maxHints], [generateFeedback]
    returns at most [maxHints] hints; the hints are those of the
    noticeable entries (deviation not below 10) among the [maxHints]
    largest deviations, in that order, so a skipped entry is not
    replaced and the result may be shorter than [maxHints] or empty. *)
Theorem generateFeedback_bound
    (deviations : Js.object R) (targetAngles userAngles : PoseAngles)
    (maxHints : R) :
  0 <= maxHints ->
  let hints :=
    generateFeedback deviations targetAngles userAngles (Some maxHints) in
  let kept := Spec.keptDeviations deviations maxHints in
  INR (List.length hints) <= maxHints
  /\ hints = map (hintFor targetAngles userAngles) kept
  /\ (forall entry, In entry kept ->
        In entry (Js.entries deviations) /\ ~ snd entry < 10)
  /\ (List.length kept
      <= List.length (sortedDeviations deviations maxHints))%nat.
Proof.
  intros Hmax hints kept.
  assert (Hhints : hints = map (hintFor targetAngles userAngles) kept)
    by apply generateFeedback_kept.
  split; [|split; [exact Hhints | split]].
  - rewrite Hhints, length_map.
    apply Rle_trans
      with (INR (List.length (sortedDeviations deviations maxHints))).
    + apply le_INR, filter_length_le.
    + now apply length_slice0.
  - intros entry Hin; apply filter_In in Hin as [Hin Hnot].
    split.
    + apply in_slice0, in_sort in Hin; exact Hin.
    + unfold Spec.noticeable in Hnot.
      destruct (Rlt_dec (snd entry) 10); [discriminate | assumption].
  - apply filter_length_le.
Qed.

Lemma generateFeedback_bound_witness :
  INR (List.length
         (generateFeedback threeDeviations [] [] (Some 2))) <= 2.
Proof.
  apply (generateFeedback_bound threeDeviations [] [] 2); lra.
Defined.

(** Model checks: a sub-threshold entry among the top ones is dropped
    and nothing takes its place; the scenario of the specification. *)
Example generateFeedback_drops :
  generateFeedback [("a", 5); ("b", 9)]%string [] [] None = [].
Proof.
  unfold generateFeedback, Js.default_arg; rewrite feedback_loop.
  unfold sortedDeviations, Js.slice0; rewrite to_integer_three.
  cbv [Js.entries Js.sort fold_right Js.insert_sorted snd List.length].
  settle_decisions.
  run_slice; settle_decisions.
  reflexivity.
Qed.

Example generateFeedback_close_elbow :
  generateFeedback [("left_elbow_angle", 80)]%string
    [("left_elbow_angle", 90)]%string
    [("left_elbow_angle", 170); ("right_elbow_angle", 40)]%string None
  = ["Close left elbow by ≈80°"]%string.
Proof.
  unfold generateFeedback, Js.default_arg; rewrite feedback_loop.
  unfold sortedDeviations, Js.slice0; rewrite to_integer_three.
  cbv [Js.entries Js.sort fold_right Js.insert_sorted snd List.length].
  run_slice; settle_decisions.
  cbn [map app]; unfold hintFor.
  cbv [fst Js.get String.eqb Ascii.eqb Bool.eqb].
  replace (90 - 170) with (IZR (-80)) by ring.
  rewrite round_IZR.
  reflexivity.
Qed.

End Feedback.

(* ================================================================= *)
(** ** Hold completion *)

Section Completion.

Import Scoring ChallengeFlow Samples.

Lemma index_last {A : Type} (earlier : list A) (a : A) :
  Js.index (earlier ++ [a])
    (Z.of_nat (List.length (earlier ++ [a])) - 1) = Some a.
Proof.
  unfold Js.index; rewrite length_app; cbn [List.length].
  replace (Z.of_nat (List.length earlier + 1) - 1)%Z
    with (Z.of_nat (List.length earlier)) by lia.
  destruct (Z.ltb_spec (Z.of_nat (List.length earlier)) 0); [lia|].
  rewrite Nat2Z.id, nth_error_app2, Nat.sub_diag by apply Nat.le_refl.
  reflexivity.
Qed.

(** C10: at hold completion the accuracy, the symmetry and the feedback
    of the session result are those of the last recorded frame alone
    (its score and its angles), whatever the earlier frames and the angle
    histories are; with no frame recorded they are 0, 0 and the empty
    list. *)
Theorem completeLevel_last_frame (currentPose : PoseData) (st : State) :
  exists result,
    sessionData (completeLevel (Some currentPose) st) = Some result
    /\ (frameScoresRef st = [] ->
        accuracy result = 0 /\ symmetry result = 0 /\ feedback result = [])
    /\ (forall earlier lastFrame,
          frameScoresRef st = (earlier ++ [lastFrame])%list ->
          accuracy result = computeAccuracy (score lastFrame)
          /\ symmetry result = computeSymmetry (angles lastFrame)
          /\ feedback result
             = generateFeedback
                 (similarity_deviations
                    (similarityScore (angles lastFrame)
                       (targetAngles currentPose) (tolerances currentPose)
                       (weights currentPose)))
                 (targetAngles currentPose) (angles lastFrame) None).
Proof.
  eexists; split; [reflexivity|].
  cbn [accuracy symmetry feedback]; split.
  - intros ->; cbn [List.length Z.of_nat]; now unfold Js.index.
  - intros earlier lastFrame ->; now rewrite index_last.
Qed.

Lemma completeLevel_last_frame_witness :
  (exists result,
     sessionData (completeLevel (Some treePose) (holdingState []))
     = Some result
     /\ accuracy result = 0 /\ symmetry result = 0 /\ feedback result = [])
  /\ (exists result,
        sessionData
          (completeLevel (Some treePose)
             (holdingState [earlyFrame; finalFrame]))
        = Some result
        /\ accuracy result = computeAccuracy (score finalFrame)
        /\ symmetry result = computeSymmetry (angles finalFrame)).
Proof.
  split.
  - destruct (completeLevel_last_frame treePose (holdingState []))
      as (result & Hsome & Hempty & _).
    exists result; split; [exact Hsome | now apply Hempty].
  - destruct (completeLevel_last_frame treePose
                (holdingState [earlyFrame; finalFrame]))
      as (result & Hsome & _ & Hlast).
    exists result; split; [exact Hsome|].
    destruct (Hlast [earlyFrame] finalFrame eq_refl) as (Hacc & Hsym & _).
    split; assumption.
Defined.

End Completion.

(* ================================================================= *)
(** ** Further properties: rounding, grades and ranges *)

Section Ranges.

Import Angles Scoring.

Lemma round_between (a b : Z) (v : R) :
  IZR a <= v <= IZR b -> (a <= Js.round v <= b)%Z.
Proof.
  intros [Ha Hb]; unfold Js.round.
  pose proof (Zfloor_bound (v + / 2)) as [Hlo _].
  split.
  - apply Zfloor_lub; lra.
  - assert (Hlt : IZR (Zfloor (v + / 2)) < IZR (b + 1))
      by (rewrite plus_IZR; lra).
    apply lt_IZR in Hlt; lia.
Qed.

Lemma round_monotone (v w : R) : v <= w -> (Js.round v <= Js.round w)%Z.
Proof. intros Hvw; unfold Js.round; apply Zfloor_le; lra. Qed.

Lemma total_bounds (a b : R) (l : list R) :
  (forall v, In v l -> a <= v <= b) ->
  INR (List.length l) * a <= Spec.total l <= INR (List.length l) * b.
Proof.
  induction l as [|v l IH]; intros Hl.
  - simpl; lra.
  - cbn [Spec.total List.length]; rewrite S_INR.
    destruct (Hl v (or_introl eq_refl)) as [Hva Hvb].
    destruct IH as [IHa IHb]; [intros w Hw; apply Hl; now right|].
    lra.
Qed.

Lemma mean_bounds (a b : R) (l : list R) :
  l <> [] -> (forall v, In v l -> a <= v <= b) -> a <= Spec.mean l <= b.
Proof.
  intros Hne Hl; destruct (total_bounds a b l Hl) as [Ha Hb].
  assert (Hn : 0 < INR (List.length l)).
  { apply lt_0_INR; destruct l; [congruence | simpl; lia]. }
  assert (Hinv : 0 < / INR (List.length l)) by now apply Rinv_0_lt_compat.
  assert (Hone : INR (List.length l) * / INR (List.length l) = 1)
    by (apply Rinv_r; lra).
  set (n := INR (List.length l)) in *.
  assert (Hlo : 0 <= (Spec.total l - n * a) * / n)
    by (apply Rmult_le_pos; lra).
  assert (Hhi : 0 <= (n * b - Spec.total l) * / n)
    by (apply Rmult_le_pos; lra).
  unfold Spec.mean, Rdiv; fold n.
  replace ((Spec.total l - n * a) * / n) with (Spec.total l * / n - a) in Hlo
    by (field; lra).
  replace ((n * b - Spec.total l) * / n) with (b - Spec.total l * / n) in Hhi
    by (field; lra).
  lra.
Qed.

Lemma symmetryScore_range_aux (l r : R) :
  0 <= Rmax 0 (1 - Rabs (l - r) / 180) <= 1.
Proof.
  pose proof (Rabs_pos (l - r)); split; [apply Rmax_l|].
  apply Rmax_lub; lra.
Qed.

(** X1: the grade thresholds are inclusive lower bounds, 80 for Advanced
    and 60 for Intermediate, and a higher score never gives a lower
    grade. *)
Theorem scoreToGrade_thresholds (s s' : R) :
  (scoreToGrade s = Advanced <-> 80 <= s)
  /\ (scoreToGrade s = Intermediate <-> 60 <= s < 80)
  /\ (scoreToGrade s = Beginner <-> s < 60)
  /\ (s <= s' ->
      (Spec.gradeRank (scoreToGrade s)
       <= Spec.gradeRank (scoreToGrade s'))%nat).
Proof.
  unfold scoreToGrade.
  destruct (Rle_dec 80 s); [|destruct (Rle_dec 60 s)];
    (split; [|split; [|split]]);
    try (split; intros; try discriminate; try lra; reflexivity);
    intros Hle;
    destruct (Rle_dec 80 s'); try lra; try (simpl; lia);
    destruct (Rle_dec 60 s'); try lra; simpl; lia.
Qed.

Lemma scoreToGrade_thresholds_witness :
  scoreToGrade 80 = Advanced /\ scoreToGrade 60 = Intermediate.
Proof.
  split.
  - apply (proj1 (scoreToGrade_thresholds 80 80)); lra.
  - apply (proj1 (proj2 (scoreToGrade_thresholds 60 80))); lra.
Defined.

(** X2: the symmetry of two angles is in [0, 1], does not depend on which
    side is left, is 1 exactly for equal angles and 0 exactly when they
    differ by 180 degrees or more. *)
Theorem symmetryScore_properties (leftAngle rightAngle : R) :
  0 <= symmetryScore leftAngle rightAngle <= 1
  /\ symmetryScore leftAngle rightAngle = symmetryScore rightAngle leftAngle
  /\ (symmetryScore leftAngle rightAngle = 1 <-> leftAngle = rightAngle)
  /\ (symmetryScore leftAngle rightAngle = 0
      <-> 180 <= Rabs (leftAngle - rightAngle)).
Proof.
  unfold symmetryScore.
  rewrite (Rabs_minus_sym rightAngle leftAngle).
  pose proof (Rabs_pos (leftAngle - rightAngle)) as Hpos.
  set (d := Rabs (leftAngle - rightAngle)) in *.
  assert (Hmax : (Rmax 0 (1 - d / 180) = 1 - d / 180 /\ 0 <= 1 - d / 180)
                 \/ (Rmax 0 (1 - d / 180) = 0 /\ 1 - d / 180 <= 0)).
  { unfold Rmax; destruct (Rle_dec 0 (1 - d / 180)); [now left | right; lra]. }
  split; [|split; [reflexivity | split]].
  - destruct Hmax as [[-> ?] | [-> _]]; lra.
  - split.
    + intros H1.
      assert (Hd : d = 0) by (destruct Hmax as [[Heq _] | [Heq _]]; lra).
      unfold d in Hd.
      destruct (Req_dec (leftAngle - rightAngle) 0) as [Hz | Hnz]; [lra|].
      apply Rabs_no_R0 in Hnz; contradiction.
    + intros ->; unfold d; replace (rightAngle - rightAngle) with 0 by ring.
      rewrite Rabs_R0; unfold Rdiv; rewrite Rmult_0_l, Rminus_0_r.
      apply Rmax_right; lra.
  - split.
    + intros H0; destruct Hmax as [[Heq _] | [_ Hle]]; lra.
    + intros Hd; apply Rmax_left; lra.
Qed.

Lemma symmetryScore_properties_witness :
  symmetryScore 90 90 = 1 /\ symmetryScore 0 180 = 0.
Proof.
  split.
  - now apply (proj1 (proj2 (proj2 (symmetryScore_properties 90 90)))).
  - apply (proj2 (proj2 (proj2 (symmetryScore_properties 0 180)))).
    rewrite Rabs_left; lra.
Defined.

(** X3: the symmetry percentage is an integer between 0 and 100, whatever
    the angles are. *)
Theorem computeSymmetry_percentage (userAngles : PoseAngles) :
  exists n : Z, computeSymmetry userAngles = IZR n /\ (0 <= n <= 100)%Z.
Proof.
  rewrite computeSymmetry_refines; unfold Spec.symmetryPercent.
  destruct (Spec.completePairSymmetries userAngles) as [|v vs] eqn:E.
  - exists 0%Z; split; [reflexivity | lia].
  - eexists; split; [reflexivity|].
    apply round_between.
    assert (Hm : 0 <= Spec.mean (v :: vs) <= 1).
    { apply mean_bounds; [discriminate|].
      rewrite <- E; unfold Spec.completePairSymmetries.
      intros w Hw; apply in_flat_map in Hw as (p & _ & Hw).
      unfold Spec.pairSymmetry in Hw.
      destruct (Js.get userAngles (fst p)) as [l|]; [|destruct Hw].
      destruct (Js.get userAngles (snd p)) as [r|]; [|destruct Hw].
      destruct Hw as [<- | []].
      apply (symmetryScore_range_aux l r). }
    lra.
Qed.

End Ranges.

Section StabilityAndSession.

Import Angles Scoring.

(** X4: the accuracy of a score in [0, 1] is an integer between 0 and
    100, and a higher score never gives a lower accuracy. *)
Theorem computeAccuracy_percentage (s s' : R) :
  (0 <= s <= 1 ->
   exists n : Z, computeAccuracy s = IZR n /\ (0 <= n <= 100)%Z)
  /\ (s <= s' -> computeAccuracy s <= computeAccuracy s').
Proof.
  unfold computeAccuracy; split.
  - intros Hs; eexists; split; [reflexivity|].
    apply round_between; lra.
  - intros Hle; apply IZR_le, round_monotone; lra.
Qed.

Lemma computeAccuracy_percentage_witness :
  (exists n : Z, computeAccuracy (1 / 2) = IZR n /\ (0 <= n <= 100)%Z)
  /\ computeAccuracy (1 / 2) <= computeAccuracy 1.
Proof.
  split.
  - apply (proj1 (computeAccuracy_percentage (1 / 2) 1)); lra.
  - apply (proj2 (computeAccuracy_percentage (1 / 2) 1)); lra.
Defined.

(** X5: the stability of every series is in [0, 1]. *)
Theorem stabilityScore_unit_interval (series : list R) :
  0 <= stabilityScore series <= 1.
Proof.
  rewrite stabilityScore_unfold.
  destruct (List.length series <? 2)%nat; [lra|].
  pose proof (sqrt_pos (Spec.populationVariance series)) as Hs.
  unfold Spec.populationStdDev; split; [apply Rmax_l|].
  apply Rmax_lub; lra.
Qed.

Lemma total_shift (c : R) (l : list R) :
  Spec.total (map (fun v => v + c) l) = Spec.total l + INR (List.length l) * c.
Proof.
  induction l as [|v l IH].
  - simpl; lra.
  - cbn [map Spec.total List.length]; rewrite S_INR, IH; lra.
Qed.

Lemma mean_shift (c : R) (l : list R) :
  l <> [] -> Spec.mean (map (fun v => v + c) l) = Spec.mean l + c.
Proof.
  intros Hne; unfold Spec.mean; rewrite total_shift, length_map.
  assert (Hn : INR (List.length l) <> 0).
  { apply not_0_INR; destruct l; simpl; congruence. }
  now field.
Qed.

Lemma stdDev_shift (c : R) (l : list R) :
  l <> [] ->
  Spec.populationStdDev (map (fun v => v + c) l) = Spec.populationStdDev l.
Proof.
  intros Hne; unfold Spec.populationStdDev, Spec.populationVariance.
  rewrite mean_shift by assumption.
  rewrite map_map; do 2 f_equal.
  apply map_ext; intros v; ring.
Qed.

(** X6: shifting every sample of a series by the same amount does not
    change its stability. *)
Theorem stabilityScore_shift (c : R) (series : list R) :
  stabilityScore (map (fun v => v + c) series) = stabilityScore series.
Proof.
  rewrite !stabilityScore_unfold, length_map.
  destruct series as [|v series]; [reflexivity|].
  now rewrite stdDev_shift by discriminate.
Qed.

Lemma computeSessionScore_unfold
    (frameScores : list FrameScore) (stabilityPenalty : R) :
  frameScores <> [] ->
  computeSessionScore frameScores (Some stabilityPenalty)
  = Spec.mean (map score frameScores) * stabilityPenalty * 100.
Proof.
  intros Hne; unfold computeSessionScore, Js.default_arg, Spec.mean.
  destruct frameScores as [|f fs]; [congruence|].
  cbn [List.length Nat.eqb].
  now rewrite fold_left_plus_total, Rplus_0_l.
Qed.

Lemma mean_unitScores (frameScores : list FrameScore) :
  frameScores <> [] -> Spec.unitScores frameScores ->
  0 <= Spec.mean (map score frameScores) <= 1.
Proof.
  intros Hne Hunit; apply mean_bounds.
  - destruct frameScores; [congruence | discriminate].
  - intros v Hv; apply in_map_iff in Hv as (f & <- & Hf); now apply Hunit.
Qed.

(** X7: with frame scores in [0, 1] and a stability factor in [0, 1], the
    session score is in [0, 100]. *)
Theorem computeSessionScore_range
    (frameScores : list FrameScore) (stabilityPenalty : R) :
  Spec.unitScores frameScores -> 0 <= stabilityPenalty <= 1 ->
  0 <= computeSessionScore frameScores (Some stabilityPenalty) <= 100.
Proof.
  intros Hunit Hp.
  destruct frameScores as [|f fs].
  - unfold computeSessionScore; simpl; lra.
  - rewrite computeSessionScore_unfold by discriminate.
    pose proof (mean_unitScores (f :: fs) ltac:(discriminate) Hunit) as Hm.
    nra.
Qed.

Lemma unitScores_single (f : FrameScore) :
  0 <= score f <= 1 -> Spec.unitScores [f].
Proof. intros Hf g [<- | []]; exact Hf. Qed.

Lemma computeSessionScore_range_witness :
  0 <= computeSessionScore [Samples.finalFrame] (Some (8 / 10)) <= 100.
Proof.
  apply computeSessionScore_range; [|lra].
  apply unitScores_single; simpl; lra.
Defined.

(** X8: with frame scores and stability factor in [0, 1], a grade above
    Beginner needs both the mean frame score and the stability factor to
    be at least 0.6, and Advanced needs both to be at least 0.8. *)
Theorem scoreToGrade_needs_both
    (frameScores : list FrameScore) (stabilityPenalty : R) :
  Spec.unitScores frameScores -> 0 <= stabilityPenalty <= 1 ->
  let grade :=
    scoreToGrade (computeSessionScore frameScores (Some stabilityPenalty)) in
  (grade <> Beginner ->
   frameScores <> []
   /\ 6 / 10 <= Spec.mean (map score frameScores)
   /\ 6 / 10 <= stabilityPenalty)
  /\ (grade = Advanced ->
      8 / 10 <= Spec.mean (map score frameScores)
      /\ 8 / 10 <= stabilityPenalty).
Proof.
  intros Hunit Hp grade; subst grade.
  destruct frameScores as [|f fs].
  - assert (H0 : computeSessionScore [] (Some stabilityPenalty) = 0)
      by reflexivity.
    rewrite H0; unfold scoreToGrade.
    destruct (Rle_dec 80 0); [lra|]; destruct (Rle_dec 60 0); [lra|].
    split; [congruence | discriminate].
  - rewrite computeSessionScore_unfold by discriminate.
    pose proof (mean_unitScores (f :: fs) ltac:(discriminate) Hunit) as Hm.
    set (m := Spec.mean (map score (f :: fs))) in *.
    unfold scoreToGrade.
    destruct (Rle_dec 80 (m * stabilityPenalty * 100));
      [|destruct (Rle_dec 60 (m * stabilityPenalty * 100))].
    + split; intros _; repeat split; try discriminate; nra.
    + split; [intros _; repeat split; try discriminate; nra | discriminate].
    + split; [congruence | discriminate].
Qed.

Lemma scoreToGrade_needs_both_witness :
  8 / 10 <= Spec.mean (map score [Samples.finalFrame]) /\ 8 / 10 <= 9 / 10.
Proof.
  apply (scoreToGrade_needs_both [Samples.finalFrame] (9 / 10)).
  - apply unitScores_single; simpl; lra.
  - lra.
  - unfold scoreToGrade.
    rewrite computeSessionScore_unfold by discriminate.
    unfold Spec.mean; cbn [map Spec.total List.length INR score
                             Samples.finalFrame].
    destruct (Rle_dec 80 ((1 + 0) / 1 * (9 / 10) * 100)); [reflexivity | lra].
Defined.

End StabilityAndSession.

(* ================================================================= *)
(** ** Further properties of the similarity score *)

Section SimilarityMore.

Import Scoring.

Lemma keys_set_in {A : Type} (o : Js.object A) (k : string) (v : A) :
  In k (Js.keys o) -> Js.keys (Js.set o k v) = Js.keys o.
Proof.
  induction o as [|[k' v'] o IH]; simpl; [tauto|].
  intros Hin; destruct (String.eqb_spec k' k) as [-> | Hne]; [reflexivity|].
  simpl; f_equal; apply IH; destruct Hin; [contradiction | assumption].
Qed.

Lemma keys_set_notin {A : Type} (o : Js.object A) (k : string) (v : A) :
  ~ In k (Js.keys o) -> Js.keys (Js.set o k v) = (Js.keys o ++ [k])%list.
Proof.
  induction o as [|[k' v'] o IH]; simpl; [reflexivity|].
  intros Hnin; destruct (String.eqb_spec k' k) as [-> | Hne]; [tauto|].
  simpl; f_equal; apply IH; tauto.
Qed.

Lemma loop_deviation_keys
    (userAngles targetAngles : PoseAngles)
    (tolerances : PoseTolerances) (weights : PoseWeights)
    (names : list string) (st : SimilarityLoop) :
  NoDup names ->
  (forall k, In k names -> ~ In k (Js.keys (deviations st))) ->
  (forall k, In k names -> exists t, Js.get targetAngles k = Some t) ->
  Js.keys
    (deviations
       (similarityLoop userAngles targetAngles tolerances weights names st))
  = (Js.keys (deviations st)
     ++ filter (Spec.has userAngles)
          names)%list.
Proof.
  revert st; induction names as [|k names IH]; intros st Hnd Hfresh Htarget.
  - simpl; now rewrite app_nil_r.
  - rewrite loop_cons; inversion Hnd as [|? ? Hk Hnd']; subst.
    destruct (Htarget k (or_introl eq_refl)) as [t Ht].
    cbn [filter]; unfold Spec.has at 1.
    destruct (Js.get userAngles k) as [u|] eqn:Hu.
    + rewrite IH; try assumption.
      * rewrite (step_common _ _ _ _ st k u t Hu Ht); cbn [deviations].
        rewrite keys_set_notin by (apply Hfresh; now left).
        now rewrite <- app_assoc.
      * intros k' Hk'.
        rewrite (step_common _ _ _ _ st k u t Hu Ht); cbn [deviations].
        rewrite keys_set_notin by (apply Hfresh; now left).
        intros Hin; apply in_app_or in Hin as [Hin | [-> | []]].
        -- apply (Hfresh k'); [now right | assumption].
        -- contradiction.
      * intros k' Hk'; apply Htarget; now right.
    + rewrite step_skipped by auto.
      apply IH; try assumption.
      * intros k' Hk'; apply Hfresh; now right.
      * intros k' Hk'; apply Htarget; now right.
Qed.

(** X9: when the target has no repeated name, the deviations are listed
    in the order of the target's names, one entry for each target name
    the user mapping has. *)
Theorem similarityScore_deviation_order
    (userAngles targetAngles : PoseAngles)
    (tolerances : PoseTolerances) (weights : PoseWeights) :
  NoDup (Js.keys targetAngles) ->
  Js.keys
    (similarity_deviations
       (similarityScore userAngles targetAngles tolerances weights))
  = filter (Spec.has userAngles)
      (Js.keys targetAngles).
Proof.
  intros Hnd; unfold similarityScore; cbn [similarity_deviations].
  rewrite loop_deviation_keys; try assumption.
  - reflexivity.
  - intros k _ [].
  - intros k; apply in_keys_get.
Qed.

Lemma similarityScore_deviation_order_witness :
  Js.keys
    (similarity_deviations
       (similarityScore [("c", 1); ("a", 2)]%string
          [("a", 5); ("b", 6); ("c", 7)]%string [] []))
  = ["a"; "c"]%string.
Proof.
  apply (similarityScore_deviation_order [("c", 1); ("a", 2)]%string
           [("a", 5); ("b", 6); ("c", 7)]%string [] []).
  repeat constructor; simpl; intuition discriminate.
Defined.

Lemma loop_no_credit
    (userAngles targetAngles : PoseAngles)
    (tolerances : PoseTolerances) (weights : PoseWeights)
    (names : list string) (st : SimilarityLoop) :
  Spec.nonNegative tolerances ->
  (forall k u t,
     Js.get userAngles k = Some u -> Js.get targetAngles k = Some t ->
     toleranceOf tolerances k <= Rabs (u - t)) ->
  weightedSum st = 0 ->
  weightedSum
    (similarityLoop userAngles targetAngles tolerances weights names st) = 0.
Proof.
  intros Htol Hfar; revert st.
  induction names as [|k names IH]; intros st Hst; [assumption|].
  rewrite loop_cons; apply IH.
  destruct (step_cases userAngles targetAngles tolerances weights st k)
    as [(u & t & Hu & Ht) | Hskip].
  - rewrite (step_common _ _ _ _ st k u t Hu Ht); cbn [weightedSum].
    pose proof (toleranceOf_positive tolerances Htol k) as Hpos.
    pose proof (Hfar k u t Hu Ht) as Hle.
    assert (Hq : 1 <= Rabs (u - t) / toleranceOf tolerances k).
    { apply Rmult_le_reg_r with (toleranceOf tolerances k); [assumption|].
      unfold Rdiv; rewrite Rmult_assoc, Rinv_l by lra; lra. }
    unfold angleScoreOf; rewrite Rmax_left by lra.
    rewrite Hst; ring.
  - now rewrite Hskip.
Qed.

(** X10: when no tolerance is negative and every common angle deviates by
    its tolerance (30 by default) or more, the score is 0. *)
Theorem similarityScore_all_out_of_tolerance
    (userAngles targetAngles : PoseAngles)
    (tolerances : PoseTolerances) (weights : PoseWeights) :
  Spec.nonNegative tolerances ->
  (forall k u t,
     Js.get userAngles k = Some u -> Js.get targetAngles k = Some t ->
     toleranceOf tolerances k <= Rabs (u - t)) ->
  similarity_score
    (similarityScore userAngles targetAngles tolerances weights) = 0.
Proof.
  intros Htol Hfar; unfold similarityScore; cbn [similarity_score].
  rewrite (loop_no_credit userAngles targetAngles tolerances weights
             (Js.keys targetAngles) similarityInit Htol Hfar eq_refl).
  destruct (Rlt_dec 0 _); [|reflexivity].
  unfold Rdiv; apply Rmult_0_l.
Qed.

Lemma similarityScore_all_out_of_tolerance_witness :
  similarity_score
    (similarityScore [("left_elbow_angle", 170)]%string
       [("left_elbow_angle", 90)]%string
       [("left_elbow_angle", 30)]%string []) = 0.
Proof.
  apply similarityScore_all_out_of_tolerance.
  - apply nonNegative_single; lra.
  - intros k u t; cbn [Js.get]; unfold toleranceOf; cbn [Js.get].
    destruct (String.eqb "left_elbow_angle" k); [|discriminate].
    intros [= <-] [= <-]; unfold Js.or_else.
    destruct (Req_dec_T 30 0); [lra|].
    rewrite Rabs_right; lra.
Defined.

Lemma similarityLoop_ext
    (userAngles userAngles' targetAngles : PoseAngles)
    (tolerances : PoseTolerances) (weights : PoseWeights)
    (names : list string) (st : SimilarityLoop) :
  (forall k, In k names -> Js.get userAngles k = Js.get userAngles' k) ->
  similarityLoop userAngles targetAngles tolerances weights names st
  = similarityLoop userAngles' targetAngles tolerances weights names st.
Proof.
  revert st; induction names as [|k names IH]; intros st Hsame;
    [reflexivity|].
  rewrite !loop_cons.
  replace (similarityStep userAngles' targetAngles tolerances weights st k)
    with (similarityStep userAngles targetAngles tolerances weights st k).
  - apply IH; intros k' Hk'; apply Hsame; now right.
  - unfold similarityStep; now rewrite (Hsame k (or_introl eq_refl)).
Qed.

(** X11: only the user angles named by the target matter: two user
    mappings that agree on every name of the target give the same score
    and the same deviations. *)
Theorem similarityScore_target_driven
    (userAngles userAngles' targetAngles : PoseAngles)
    (tolerances : PoseTolerances) (weights : PoseWeights) :
  (forall k, In k (Js.keys targetAngles) ->
             Js.get userAngles k = Js.get userAngles' k) ->
  similarityScore userAngles targetAngles tolerances weights
  = similarityScore userAngles' targetAngles tolerances weights.
Proof.
  intros Hsame; unfold similarityScore.
  now rewrite (similarityLoop_ext userAngles userAngles' targetAngles
                 tolerances weights (Js.keys targetAngles) similarityInit
                 Hsame).
Qed.

Lemma similarityScore_target_driven_witness :
  similarityScore [("a", 10); ("extra", 99)]%string [("a", 20)]%string [] []
  = similarityScore [("a", 10)]%string [("a", 20)]%string [] [].
Proof.
  apply similarityScore_target_driven.
  intros k [<- | []]; reflexivity.
Defined.

End SimilarityMore.

Section WeightedMean.

Import Scoring.

Lemma loop_sums
    (userAngles targetAngles : PoseAngles)
    (tolerances : PoseTolerances) (weights : PoseWeights)
    (names : list string) (st : SimilarityLoop) :
  (forall k, In k names -> exists t, Js.get targetAngles k = Some t) ->
  let counted := filter (Spec.has userAngles) names in
  let st' :=
    similarityLoop userAngles targetAngles tolerances weights names st in
  totalWeight st'
  = totalWeight st + Spec.total (map (weightOf weights) counted)
  /\ weightedSum st'
     = weightedSum st
       + Spec.total
           (map (fun k =>
                   Spec.angleCredit userAngles targetAngles tolerances k
                   * weightOf weights k)
              counted).
Proof.
  cbv zeta; revert st; induction names as [|k names IH]; intros st Htarget.
  - simpl; split; lra.
  - rewrite loop_cons.
    destruct (Htarget k (or_introl eq_refl)) as [t Ht].
    destruct (IH (similarityStep userAngles targetAngles tolerances weights
                    st k)) as [IHw IHs];
      [intros k' Hk'; apply Htarget; now right|].
    assert (Hc :
      Spec.angleCredit userAngles targetAngles tolerances k
      = match Js.get userAngles k with
        | Some u => angleScoreOf (Rabs (u - t)) (toleranceOf tolerances k)
        | None => 0
        end).
    { unfold Spec.angleCredit; rewrite Ht.
      now destruct (Js.get userAngles k). }
    rewrite IHw, IHs; cbn [filter].
    destruct (Js.get userAngles k) as [u|] eqn:Hu.
    + assert (Hhas : Spec.has userAngles k = true)
        by (unfold Spec.has; now rewrite Hu).
      rewrite Hhas, (step_common _ _ _ _ st k u t Hu Ht).
      cbn [totalWeight weightedSum map Spec.total].
      rewrite Hc; split; ring.
    + assert (Hhas : Spec.has userAngles k = false)
        by (unfold Spec.has; now rewrite Hu).
      rewrite Hhas, step_skipped by auto; split; reflexivity.
Qed.

(** X12: the score is the weighted mean of the per-angle scores over the
    target names the user mapping has, each weighted by its weight (1 by
    default), and 0 when the weights do not add up to a positive total. *)
Theorem similarityScore_weighted_mean
    (userAngles targetAngles : PoseAngles)
    (tolerances : PoseTolerances) (weights : PoseWeights) :
  let counted := filter (Spec.has userAngles) (Js.keys targetAngles) in
  let weightSum := Spec.total (map (weightOf weights) counted) in
  let creditSum :=
    Spec.total
      (map (fun k =>
              Spec.angleCredit userAngles targetAngles tolerances k
              * weightOf weights k)
         counted) in
  similarity_score
    (similarityScore userAngles targetAngles tolerances weights)
  = if Rlt_dec 0 weightSum then creditSum / weightSum else 0.
Proof.
  cbv zeta; unfold similarityScore; cbn [similarity_score].
  destruct (loop_sums userAngles targetAngles tolerances weights
              (Js.keys targetAngles) similarityInit) as [Hw Hs];
    [intros k; apply in_keys_get|].
  rewrite Hw, Hs; cbn [totalWeight weightedSum similarityInit].
  now rewrite !Rplus_0_l.
Qed.

End WeightedMean.

Section ZeroDefaults.

Import Scoring.

Lemma total_nonneg (l : list R) :
  (forall v, In v l -> 0 <= v) -> 0 <= Spec.total l.
Proof.
  induction l as [|v l IH]; intros Hl; cbn [Spec.total]; [lra|].
  pose proof (Hl v (or_introl eq_refl)).
  assert (0 <= Spec.total l) by (apply IH; intros; apply Hl; now right).
  lra.
Qed.

Lemma total_positive (l : list R) (x : R) :
  (forall v, In v l -> 0 <= v) -> In x l -> 0 < x -> 0 < Spec.total l.
Proof.
  induction l as [|v l IH]; intros Hl Hin Hx; [destruct Hin|].
  cbn [Spec.total].
  assert (Hrest : 0 <= Spec.total l)
    by (apply total_nonneg; intros; apply Hl; now right).
  pose proof (Hl v (or_introl eq_refl)).
  destruct Hin as [-> | Hin]; [lra|].
  assert (0 < Spec.total l)
    by (apply IH; [intros; apply Hl; now right | assumption | assumption]).
  lra.
Qed.

Lemma creditInForce_nonneg (userAngles targetAngles : PoseAngles)
    (tolerances : PoseTolerances) (k : string) :
  0 <= Spec.creditInForce userAngles targetAngles tolerances k.
Proof.
  unfold Spec.creditInForce.
  destruct (Js.get userAngles k); [|lra].
  destruct (Js.get targetAngles k); [apply Rmax_l | lra].
Qed.

Lemma effectiveWeight_positive (weights : PoseWeights) (k : string) :
  Spec.nonNegative weights -> 0 < Spec.effectiveWeight weights k.
Proof.
  intros Hw; apply (or_else_positive (Js.get weights k) 1); [lra|].
  intros v; apply Hw.
Qed.

(** The score in terms of the tolerances and weights in force. *)
Lemma score_in_force
    (userAngles targetAngles : PoseAngles)
    (tolerances : PoseTolerances) (weights : PoseWeights) :
  let counted := filter (Spec.has userAngles) (Js.keys targetAngles) in
  let weightSum := Spec.total (map (Spec.effectiveWeight weights) counted) in
  similarity_score
    (similarityScore userAngles targetAngles tolerances weights)
  = if Rlt_dec 0 weightSum
    then
      Spec.total
        (map (fun k =>
                Spec.creditInForce userAngles targetAngles tolerances k
                * Spec.effectiveWeight weights k)
           counted)
      / weightSum
    else 0.
Proof.
  cbv zeta; unfold similarityScore; cbn [similarity_score].
  destruct (loop_sums userAngles targetAngles tolerances weights
              (Js.keys targetAngles) similarityInit) as [Hw Hs];
    [intros k; apply in_keys_get|].
  rewrite Hw, Hs; cbn [totalWeight weightedSum similarityInit].
  rewrite !Rplus_0_l; reflexivity.
Qed.

(** C9: an explicit tolerance of 0 counts as 30 and an explicit weight of
    0 counts as 1.  The returned score is the weighted mean under the
    tolerances and weights in force (0 and missing replaced by 30 and 1),
    and the whole result is the one obtained with every explicit zero
    replaced by its default.  So angles of weight 0 are not left out: when
    all counted angles have weight 0 the score is the plain mean of their
    per-angle scores.  And a tolerance of 0 does not force a per-angle
    score of 0: with a deviation below 30 that score is
    [1 - deviation / 30] and, no weight being negative, the returned
    score is positive. *)
Theorem similarityScore_zero_defaults
    (userAngles targetAngles : PoseAngles)
    (tolerances : PoseTolerances) (weights : PoseWeights) :
  let counted := filter (Spec.has userAngles) (Js.keys targetAngles) in
  let score :=
    similarity_score
      (similarityScore userAngles targetAngles tolerances weights) in
  let credit := Spec.creditInForce userAngles targetAngles tolerances in
  let weight := Spec.effectiveWeight weights in
  let weightSum := Spec.total (map weight counted) in
  score
  = (if Rlt_dec 0 weightSum
     then Spec.total (map (fun k => credit k * weight k) counted) / weightSum
     else 0)
  /\ similarityScore userAngles targetAngles tolerances weights
     = similarityScore userAngles targetAngles
         (Spec.zerosReplaced 30 tolerances) (Spec.zerosReplaced 1 weights)
  /\ (counted <> [] ->
      (forall k, In k counted -> Js.get weights k = Some 0) ->
      score = Spec.mean (map credit counted))
  /\ (forall k u t,
        Js.get userAngles k = Some u -> Js.get targetAngles k = Some t ->
        Js.get tolerances k = Some 0 -> Rabs (u - t) < 30 ->
        Spec.nonNegative weights ->
        credit k = 1 - Rabs (u - t) / 30 /\ 0 < score).
Proof.
  cbv zeta.
  pose proof (score_in_force userAngles targetAngles tolerances weights)
    as Hscore; cbv zeta in Hscore.
  set (counted := filter (Spec.has userAngles) (Js.keys targetAngles)) in *.
  split; [exact Hscore | split; [|split]].
  - unfold similarityScore; now rewrite similarityLoop_zerosReplaced.
  - intros Hne Hzero; rewrite Hscore.
    assert (Hone : forall k, In k counted ->
                             Spec.effectiveWeight weights k = 1).
    { intros k Hk; unfold Spec.effectiveWeight; rewrite (Hzero k Hk).
      destruct (Req_dec_T 0 0); [reflexivity | contradiction]. }
    assert (Hw : Spec.total (map (Spec.effectiveWeight weights) counted)
                 = INR (List.length counted)).
    { rewrite (total_constant 1), length_map; [ring|].
      intros v Hv; apply in_map_iff in Hv as (k & <- & Hk); now apply Hone. }
    assert (Hc :
      map (fun k =>
             Spec.creditInForce userAngles targetAngles tolerances k
             * Spec.effectiveWeight weights k) counted
      = map (Spec.creditInForce userAngles targetAngles tolerances) counted).
    { apply map_ext_in; intros k Hk; rewrite (Hone k Hk); ring. }
    rewrite Hw, Hc.
    assert (Hpos : 0 < INR (List.length counted)).
    { apply lt_0_INR; destruct counted; [congruence | simpl; lia]. }
    destruct (Rlt_dec 0 (INR (List.length counted))); [|contradiction].
    unfold Spec.mean; now rewrite length_map.
  - intros k u t Hu Ht Htol Hdiff Hnonneg.
    pose proof (Rabs_pos (u - t)) as Habs.
    assert (Hcredit :
      Spec.creditInForce userAngles targetAngles tolerances k
      = 1 - Rabs (u - t) / 30).
    { unfold Spec.creditInForce, Spec.effectiveTolerance.
      rewrite Hu, Ht, Htol.
      destruct (Req_dec_T 0 0); [|contradiction].
      apply Rmax_right; lra. }
    split; [exact Hcredit|].
    assert (Hk : In k counted).
    { apply filter_In; split.
      - eapply get_some_in_keys; eassumption.
      - unfold Spec.has; now rewrite Hu. }
    assert (Hwsum :
      0 < Spec.total (map (Spec.effectiveWeight weights) counted)).
    { apply total_positive with (Spec.effectiveWeight weights k).
      - intros v Hv; apply in_map_iff in Hv as (k' & <- & _).
        left; now apply effectiveWeight_positive.
      - now apply in_map.
      - now apply effectiveWeight_positive. }
    assert (Hcsum :
      0 < Spec.total
            (map (fun k =>
                    Spec.creditInForce userAngles targetAngles tolerances k
                    * Spec.effectiveWeight weights k) counted)).
    { apply total_positive
        with (Spec.creditInForce userAngles targetAngles tolerances k
              * Spec.effectiveWeight weights k).
      - intros v Hv; apply in_map_iff in Hv as (k' & <- & _).
        apply Rmult_le_pos; [apply creditInForce_nonneg|].
        left; now apply effectiveWeight_positive.
      - apply (in_map (fun k =>
                  Spec.creditInForce userAngles targetAngles tolerances k
                  * Spec.effectiveWeight weights k)); assumption.
      - apply Rmult_lt_0_compat;
          [rewrite Hcredit; lra | now apply effectiveWeight_positive]. }
    rewrite Hscore.
    destruct (Rlt_dec 0 _); [|contradiction].
    apply Rmult_lt_0_compat; [assumption | now apply Rinv_0_lt_compat].
Qed.

Lemma similarityScore_zero_defaults_witness :
  let userAngles := [("a", 15); ("b", 100)]%string in
  let targetAngles := [("a", 0); ("b", 100)]%string in
  let zeros := [("a", 0); ("b", 0)]%string in
  let score :=
    similarity_score (similarityScore userAngles targetAngles zeros zeros) in
  score
  = Spec.mean
      (map (Spec.creditInForce userAngles targetAngles zeros)
         ["a"; "b"]%string)
  /\ Spec.creditInForce userAngles targetAngles zeros "a" = 1 - Rabs (15 - 0) / 30
  /\ 0 < score.
Proof.
  intros userAngles targetAngles zeros score.
  destruct (similarityScore_zero_defaults userAngles targetAngles
              zeros zeros) as (_ & _ & Hmean & Hpositive).
  split; [|].
  - apply Hmean; [discriminate|].
    intros k [<- | [<- | []]]; reflexivity.
  - apply (Hpositive "a"%string 15 0); try reflexivity.
    + rewrite Rabs_right; lra.
    + intros k v; cbn [Js.get zeros].
      destruct (String.eqb "a" k); [intros [= <-]; lra|].
      destruct (String.eqb "b" k); [intros [= <-]; lra | discriminate].
Defined.

(** The witness evaluated: with all weights and tolerances 0 the two
    angles count equally, (1/2 + 1) / 2. *)
Example similarityScore_all_zero :
  similarity_score
    (similarityScore [("a", 15); ("b", 100)]%string
       [("a", 0); ("b", 100)]%string [("a", 0); ("b", 0)]%string
       [("a", 0); ("b", 0)]%string) = 3 / 4.
Proof. run_similarity. Qed.

End ZeroDefaults.

(* ================================================================= *)
(** ** Further properties of the feedback *)

Section FeedbackMore.

Import Scoring.

Local Abbreviation byDeviation :=
  (fun a b : string * R => snd b - snd a).

Lemma insert_sorted_permutation {A : Type} (cmp : A -> A -> R) (a : A)
    (l : list A) :
  Permutation (Js.insert_sorted cmp a l) (a :: l).
Proof.
  induction l as [|b l IH]; simpl; [apply Permutation_refl|].
  destruct (Rlt_dec 0 (cmp a b)); [|apply Permutation_refl].
  apply perm_trans with (b :: a :: l); [now apply perm_skip | apply perm_swap].
Qed.

Lemma sort_permutation {A : Type} (cmp : A -> A -> R) (l : list A) :
  Permutation (Js.sort cmp l) l.
Proof.
  unfold Js.sort; induction l as [|a l IH]; simpl; [apply perm_nil|].
  apply perm_trans with (a :: fold_right (Js.insert_sorted cmp) [] l).
  - apply insert_sorted_permutation.
  - now apply perm_skip.
Qed.

Lemma insert_sorted_descending (a : string * R) (l : list (string * R)) :
  Spec.descending l -> Spec.descending (Js.insert_sorted byDeviation a l).
Proof.
  unfold Spec.descending; induction l as [|b l IH]; intros Hs; simpl.
  - constructor; constructor.
  - apply StronglySorted_inv in Hs as [Hs Hb].
    destruct (Rlt_dec 0 (snd b - snd a)) as [Hlt | Hge].
    + constructor; [now apply IH|].
      apply Forall_forall; intros e He.
      apply (Permutation_in _ (insert_sorted_permutation _ a l)) in He.
      destruct He as [<- | He]; [lra|].
      rewrite Forall_forall in Hb; now apply Hb.
    + constructor; [now constructor|].
      constructor; [lra|].
      apply Forall_forall; intros e He.
      rewrite Forall_forall in Hb; specialize (Hb e He); lra.
Qed.

Lemma sort_descending (l : list (string * R)) :
  Spec.descending (Js.sort byDeviation l).
Proof.
  unfold Js.sort; induction l as [|a l IH]; simpl.
  - constructor.
  - now apply insert_sorted_descending.
Qed.

Lemma firstn_descending (n : nat) (l : list (string * R)) :
  Spec.descending l -> Spec.descending (firstn n l).
Proof.
  unfold Spec.descending; revert n; induction l as [|a l IH]; intros n Hs.
  - rewrite firstn_nil; constructor.
  - destruct n as [|n]; [constructor|].
    apply StronglySorted_inv in Hs as [Hs Ha]; cbn [firstn].
    constructor; [now apply IH|].
    apply Forall_forall; intros e He; apply in_firstn in He.
    rewrite Forall_forall in Ha; now apply Ha.
Qed.

Lemma insert_sorted_ties (d : R) (a : string * R) (l : list (string * R)) :
  Spec.withDeviation d (Js.insert_sorted byDeviation a l)
  = Spec.withDeviation d (a :: l).
Proof.
  unfold Spec.withDeviation; induction l as [|b l IH]; [reflexivity|].
  cbn [Js.insert_sorted].
  destruct (Rlt_dec 0 (snd b - snd a)) as [Hlt | Hge]; [|reflexivity].
  cbn [filter] in *; rewrite IH.
  destruct (Req_dec_T (snd a) d) as [Ha | Ha]; [|reflexivity].
  destruct (Req_dec_T (snd b) d) as [Hb | Hb]; [lra | reflexivity].
Qed.

Lemma sort_ties (d : R) (l : list (string * R)) :
  Spec.withDeviation d (Js.sort byDeviation l) = Spec.withDeviation d l.
Proof.
  unfold Js.sort; induction l as [|a l IH]; [reflexivity|].
  cbn [fold_right]; rewrite insert_sorted_ties.
  unfold Spec.withDeviation in *; cbn [filter]; now rewrite IH.
Qed.

Lemma slice0_firstn {A : Type} (l : list A) (e : R) :
  0 <= e -> Js.slice0 l e = firstn (Z.to_nat (Js.to_integer e)) l.
Proof.
  intros He; destruct (to_integer_nonneg e He) as [Hpos _].
  unfold Js.slice0.
  destruct (Z.ltb_spec (Js.to_integer e) 0) as [Hneg | _]; [lia|].
  destruct (Z.le_ge_cases (Js.to_integer e) (Z.of_nat (List.length l)))
    as [Hle | Hge].
  - now rewrite Z.min_l.
  - rewrite Z.min_r, Nat2Z.id by assumption.
    rewrite firstn_all, firstn_all2; [reflexivity | lia].
Qed.

Lemma slice0_all {A : Type} (l : list A) (e : R) :
  INR (List.length l) <= e -> Js.slice0 l e = l.
Proof.
  intros Hlen.
  assert (He : 0 <= e) by (pose proof (pos_INR (List.length l)); lra).
  rewrite slice0_firstn by assumption.
  apply firstn_all2.
  assert (Hz : (Z.of_nat (List.length l) <= Js.to_integer e)%Z).
  { unfold Js.to_integer; destruct (Rlt_dec e 0); [lra|].
    apply Zfloor_lub; now rewrite <- INR_IZR_INZ. }
  lia.
Qed.

(** X13: the entries the hints are made from come in non-increasing order
    of deviation; when [maxHints] is at least the number of deviations they
    are all the deviations, and entries of equal deviation keep the order
    they have in the deviations object. *)
Theorem sortedDeviations_order (deviations : Js.object R) (maxHints : R) :
  Spec.descending (sortedDeviations deviations maxHints)
  /\ (INR (List.length deviations) <= maxHints ->
      Permutation (sortedDeviations deviations maxHints)
        (Js.entries deviations)
      /\ forall d,
          Spec.withDeviation d (sortedDeviations deviations maxHints)
          = Spec.withDeviation d (Js.entries deviations)).
Proof.
  unfold sortedDeviations; split.
  - apply firstn_descending, sort_descending.
  - intros Hlen.
    rewrite slice0_all
      by (now rewrite (Permutation_length (sort_permutation _ _))).
    split; [apply sort_permutation | intros d; apply sort_ties].
Qed.

Lemma sortedDeviations_order_witness :
  Permutation (sortedDeviations Samples.threeDeviations 3)
    (Js.entries Samples.threeDeviations).
Proof.
  apply (proj2 (sortedDeviations_order Samples.threeDeviations 3)).
  simpl; lra.
Defined.

Lemma noticeable_prefix (n : nat) (l : list (string * R)) :
  Spec.descending l ->
  filter Spec.noticeable (firstn n l) = firstn n (filter Spec.noticeable l).
Proof.
  unfold Spec.descending; revert n; induction l as [|a l IH]; intros n Hs.
  - now rewrite !firstn_nil.
  - destruct n as [|n]; [reflexivity|].
    apply StronglySorted_inv in Hs as [Hs Ha].
    cbn [firstn filter].
    destruct (Spec.noticeable a) eqn:Hna.
    + cbn [firstn]; now rewrite IH.
    + assert (Hnone : forall l', (forall e, In e l' -> In e l) ->
                                 filter Spec.noticeable l' = []).
      { intros l' Hsub; induction l' as [|e l' IHl']; [reflexivity|].
        cbn [filter].
        assert (He : In e l) by (apply Hsub; now left).
        rewrite Forall_forall in Ha; specialize (Ha e He).
        unfold Spec.noticeable in *.
        destruct (Rlt_dec (snd a) 10); [|discriminate].
        destruct (Rlt_dec (snd e) 10); [|lra].
        apply IHl'; intros e' He'; apply Hsub; now right. }
      rewrite (Hnone (firstn n l)) by (intros e; apply in_firstn).
      rewrite (Hnone l) by auto.
      reflexivity.
Qed.

Lemma insert_sorted_filter_length {A : Type} (cmp : A -> A -> R)
    (f : A -> bool) (a : A) (l : list A) :
  List.length (filter f (Js.insert_sorted cmp a l))
  = List.length (filter f (a :: l)).
Proof.
  induction l as [|b l IH]; [reflexivity|].
  cbn [Js.insert_sorted].
  destruct (Rlt_dec 0 (cmp a b)); [|reflexivity].
  cbn [filter] in *.
  destruct (f b); cbn [List.length]; rewrite IH; destruct (f a); reflexivity.
Qed.

Lemma sort_filter_length {A : Type} (cmp : A -> A -> R) (f : A -> bool)
    (l : list A) :
  List.length (filter f (Js.sort cmp l)) = List.length (filter f l).
Proof.
  unfold Js.sort; induction l as [|a l IH]; [reflexivity|].
  cbn [fold_right]; rewrite insert_sorted_filter_length.
  cbn [filter]; destruct (f a); cbn [List.length]; now rewrite IH.
Qed.

(** X14: for a non-negative [maxHints], the number of hints is the smaller
    of [maxHints] (truncated to an integer) and the number of deviations
    that are not below 10: skipping a small deviation never loses a hint
    that a smaller-ranked entry could have given. *)
Theorem generateFeedback_count
    (deviations : Js.object R) (targetAngles userAngles : PoseAngles)
    (maxHints : R) :
  0 <= maxHints ->
  List.length
    (generateFeedback deviations targetAngles userAngles (Some maxHints))
  = Nat.min (Z.to_nat (Js.to_integer maxHints))
      (List.length (filter Spec.noticeable (Js.entries deviations))).
Proof.
  intros Hmax.
  rewrite generateFeedback_kept, length_map.
  unfold Spec.keptDeviations, sortedDeviations.
  rewrite slice0_firstn by assumption.
  rewrite noticeable_prefix by apply sort_descending.
  now rewrite length_firstn, sort_filter_length.
Qed.

Lemma generateFeedback_count_witness :
  List.length (generateFeedback Samples.threeDeviations [] [] (Some 2))
  = Nat.min (Z.to_nat (Js.to_integer 2))
      (List.length
         (filter Spec.noticeable (Js.entries Samples.threeDeviations))).
Proof.
  apply generateFeedback_count; lra.
Defined.

Lemma round_positive (v : R) : (0 < Js.round v)%Z <-> / 2 <= v.
Proof.
  unfold Js.round; pose proof (Zfloor_bound (v + / 2)) as [Hlo Hhi].
  split.
  - intros Hpos.
    assert (H1 : IZR 1 <= IZR (Zfloor (v + / 2))) by (apply IZR_le; lia).
    lra.
  - intros Hv.
    assert (H1 : (1 <= Zfloor (v + / 2))%Z) by (apply Zfloor_lub; lra).
    lia.
Qed.

Lemma prefix_app (p s : string) : String.prefix p (p ++ s) = true.
Proof.
  induction p as [|c p IH]; simpl.
  - now destruct s.
  - destruct (ascii_dec c c); [assumption | congruence].
Qed.

(** X15: a hint says "Open" exactly when both angles are known and the
    target exceeds the user's angle by half a degree or more; every other
    hint says "Close". *)
Theorem hintFor_direction
    (targetAngles userAngles : PoseAngles) (entry : string * R) :
  let hint := hintFor targetAngles userAngles entry in
  (String.prefix "Open " hint = true
   <-> exists t u,
         Js.get targetAngles (fst entry) = Some t
         /\ Js.get userAngles (fst entry) = Some u
         /\ / 2 <= t - u)
  /\ (String.prefix "Open " hint = false ->
      String.prefix "Close " hint = true).
Proof.
  unfold hintFor.
  set (label := Js.trim _).
  destruct (Js.get targetAngles (fst entry)) as [t|];
    [destruct (Js.get userAngles (fst entry)) as [u|]|].
  - set (amount := Js.show_integer _).
    destruct (0 <? Js.round (t - u))%Z eqn:Hd; cbv zeta.
    + apply Z.ltb_lt, round_positive in Hd.
      rewrite (prefix_app "Open ").
      split; [|discriminate].
      split; [intros _; eauto | reflexivity].
    + apply Z.ltb_ge in Hd.
      rewrite (prefix_app "Close ").
      split; [|reflexivity].
      split; [discriminate|].
      intros (t' & u' & [= <-] & [= <-] & Hge).
      apply round_positive in Hge; lia.
  - cbv zeta; rewrite (prefix_app "Close "); split; [|reflexivity].
    split; [discriminate | intros (? & ? & _ & [=] & _)].
  - cbv zeta; rewrite (prefix_app "Close "); split; [|reflexivity].
    split; [discriminate | intros (? & ? & [=] & _)].
Qed.

Lemma hintFor_direction_witness :
  String.prefix "Open "
    (hintFor [("left_knee_angle", 170)]%string
       [("left_knee_angle", 120)]%string ("left_knee_angle"%string, 50))
  = true.
Proof.
  apply (proj1 (hintFor_direction [("left_knee_angle", 170)]%string
                  [("left_knee_angle", 120)]%string
                  ("left_knee_angle"%string, 50))).
  exists 170, 120; repeat split; lra.
Defined.

End FeedbackMore.

Section FeedbackOfSimilarity.

Import Scoring.

Lemma keys_set_cases {A : Type} (o : Js.object A) (k k' : string) (v : A) :
  In k' (Js.keys (Js.set o k v)) -> k' = k \/ In k' (Js.keys o).
Proof.
  destruct (in_dec string_dec k (Js.keys o)) as [Hin | Hnin].
  - rewrite keys_set_in by assumption; auto.
  - rewrite keys_set_notin by assumption.
    intros H; apply in_app_or in H as [H | [<- | []]]; auto.
Qed.

Lemma set_keeps_distinct {A : Type} (o : Js.object A) (k : string) (v : A) :
  NoDup (Js.keys o) -> NoDup (Js.keys (Js.set o k v)).
Proof.
  induction o as [|[k' v'] o IH]; simpl; intros Hnd.
  - constructor; [tauto | constructor].
  - inversion Hnd as [|? ? Hk' Hnd']; subst.
    destruct (String.eqb_spec k' k) as [-> | Hne]; simpl.
    + now constructor.
    + constructor; [|now apply IH].
      intros Hin; apply keys_set_cases in Hin as [-> | Hin]; tauto.
Qed.

Lemma loop_keeps_distinct
    (userAngles targetAngles : PoseAngles)
    (tolerances : PoseTolerances) (weights : PoseWeights)
    (names : list string) (st : SimilarityLoop) :
  NoDup (Js.keys (deviations st)) ->
  NoDup
    (Js.keys
       (deviations
          (similarityLoop userAngles targetAngles tolerances weights
             names st))).
Proof.
  revert st; induction names as [|k names IH]; intros st Hnd; [assumption|].
  rewrite loop_cons; apply IH.
  destruct (step_cases userAngles targetAngles tolerances weights st k)
    as [(u & t & Hu & Ht) | Hskip].
  - rewrite (step_common _ _ _ _ st k u t Hu Ht); cbn [deviations].
    now apply set_keeps_distinct.
  - now rewrite Hskip.
Qed.

Lemma in_get_distinct {A : Type} (o : Js.object A) (k : string) (v : A) :
  NoDup (Js.keys o) -> In (k, v) o -> Js.get o k = Some v.
Proof.
  induction o as [|[k' v'] o IH]; simpl; intros Hnd Hin; [destruct Hin|].
  inversion Hnd as [|? ? Hk' Hnd']; subst.
  destruct Hin as [[= -> ->] | Hin].
  - now rewrite String.eqb_refl.
  - destruct (String.eqb_spec k' k) as [-> | Hne]; [|now apply IH].
    exfalso; apply Hk'.
    change k with (fst (k, v)); now apply in_map.
Qed.

Lemma round_magnitude (v : R) :
  10 <= Rabs v -> (10 <= Z.abs (Js.round v))%Z.
Proof.
  unfold Js.round; pose proof (Zfloor_bound (v + / 2)) as [Hlo Hhi].
  unfold Rabs; destruct (Rcase_abs v) as [Hneg | Hpos]; intros Hv.
  - assert (Hlt : IZR (Zfloor (v + / 2)) < IZR (-9)) by lra.
    apply lt_IZR in Hlt; lia.
  - assert (Hge : (10 <= Zfloor (v + / 2))%Z) by (apply Zfloor_lub; lra).
    lia.
Qed.

(** X16: a hint made from the deviations that [similarityScore] returns
    is about an angle both mappings have, its entry carries the deviation
    [|user - target|], and the rounded correction it prints is 10 degrees
    or more. *)
Theorem feedback_of_similarity
    (userAngles targetAngles : PoseAngles)
    (tolerances : PoseTolerances) (weights : PoseWeights)
    (maxHints : R) (entry : string * R) :
  In entry
    (Spec.keptDeviations
       (similarity_deviations
          (similarityScore userAngles targetAngles tolerances weights))
       maxHints) ->
  exists t u,
    Js.get targetAngles (fst entry) = Some t
    /\ Js.get userAngles (fst entry) = Some u
    /\ snd entry = Rabs (u - t)
    /\ (10 <= Z.abs (Js.round (t - u)))%Z
    /\ hintFor targetAngles userAngles entry
       = ((if (0 <? Js.round (t - u))%Z then "Open " else "Close ")
          ++ Js.trim (Js.remove_angle (Js.replace_underscores (fst entry)))
          ++ " by ≈"
          ++ Js.show_integer (Some (Z.abs (Js.round (t - u))))
          ++ "°")%string.
Proof.
  intros Hin; apply filter_In in Hin as [Hin Hnot].
  apply in_slice0, in_sort in Hin.
  unfold similarityScore in Hin; cbn [similarity_deviations Js.entries] in Hin.
  destruct entry as [k d]; cbn [fst snd] in *.
  apply in_get_distinct in Hin;
    [|apply loop_keeps_distinct; constructor].
  assert (Hd : ~ d < 10).
  { unfold Spec.noticeable in Hnot; cbn [snd] in Hnot.
    destruct (Rlt_dec d 10); [discriminate | assumption]. }
  destruct (Js.get targetAngles k) as [t|] eqn:Ht;
    [destruct (Js.get userAngles k) as [u|] eqn:Hu|].
  - rewrite (loop_deviations_recorded userAngles targetAngles tolerances
               weights (Js.keys targetAngles) similarityInit k u t) in Hin;
      try assumption; [|eapply get_some_in_keys; eassumption].
    injection Hin as <-.
    exists t, u; repeat split.
    + apply round_magnitude; rewrite Rabs_minus_sym; lra.
    + unfold hintFor; cbn [fst]; rewrite Ht, Hu; cbn [option_map].
      now destruct (0 <? Js.round (t - u))%Z.
  - rewrite loop_deviations_missing in Hin by auto; discriminate.
  - rewrite loop_deviations_missing in Hin by auto; discriminate.
Qed.

Lemma feedback_of_similarity_witness :
  exists t u,
    Js.get [("left_elbow_angle", 90)]%string "left_elbow_angle" = Some t
    /\ Js.get [("left_elbow_angle", 170)]%string "left_elbow_angle" = Some u
    /\ 80 = Rabs (u - t)
    /\ (10 <= Z.abs (Js.round (t - u)))%Z.
Proof.
  destruct (feedback_of_similarity [("left_elbow_angle", 170)]%string
              [("left_elbow_angle", 90)]%string [] [] 3
              ("left_elbow_angle"%string, 80))
    as (t & u & Ht & Hu & Hd & Hr & _).
  - unfold Spec.keptDeviations, sortedDeviations.
    rewrite slice0_firstn by lra; rewrite to_integer_three.
    unfold similarityScore; cbn [similarity_deviations].
    cbv [similarityLoop similarityStep similarityInit Js.keys Js.get Js.set
         fold_left map fst snd String.eqb Ascii.eqb Bool.eqb deviations
         Js.entries Js.sort fold_right Js.insert_sorted].
    replace (Rabs (170 - 90)) with 80 by (rewrite Rabs_right; lra).
    run_slice; settle_decisions.
    now left.
  - exists t, u; cbn [fst snd] in *; auto.
Defined.

End FeedbackOfSimilarity.

(* ================================================================= *)
(** ** The angle extractor *)

Section Extraction.

Import Angles Scoring.

Lemma computeAngle_bounds (jointA jointB jointC : Point3D) :
  0 <= computeAngle jointA jointB jointC <= 180.
Proof.
  unfold computeAngle; cbn [x y z].
  destruct (Req_dec_T _ 0); [lra|].
  destruct (Req_dec_T _ 0); [lra|].
  apply degrees_range, acos_bound.
Qed.

Lemma computeAngleAt_bounds (landmarks : list Point3D) (a b c : Z) (v : R) :
  computeAngleAt landmarks a b c = Some v -> 0 <= v <= 180.
Proof.
  unfold computeAngleAt.
  destruct (Js.index landmarks a); [|discriminate].
  destruct (Js.index landmarks b); [|discriminate].
  destruct (Js.index landmarks c); [|discriminate].
  intros [= <-]; apply computeAngle_bounds.
Qed.

Lemma index_defined {A : Type} (l : list A) (i : Z) :
  (0 <= i < Z.of_nat (List.length l))%Z -> exists a, Js.index l i = Some a.
Proof.
  intros Hi; unfold Js.index.
  destruct (Z.ltb_spec i 0); [lia|].
  destruct (nth_error l (Z.to_nat i)) as [a|] eqn:E; [eauto|].
  apply nth_error_None in E; lia.
Qed.

Lemma index_undefined {A : Type} (l : list A) (i : Z) :
  (Z.of_nat (List.length l) <= i)%Z -> Js.index l i = None.
Proof.
  intros Hi; unfold Js.index.
  destruct (Z.ltb_spec i 0); [reflexivity|].
  apply nth_error_None; lia.
Qed.

Lemma computeAngleAt_defined (landmarks : list Point3D) (a b c : Z) :
  (0 <= a < Z.of_nat (List.length landmarks))%Z ->
  (0 <= b < Z.of_nat (List.length landmarks))%Z ->
  (0 <= c < Z.of_nat (List.length landmarks))%Z ->
  exists v, computeAngleAt landmarks a b c = Some v.
Proof.
  intros Ha Hb Hc; unfold computeAngleAt.
  destruct (index_defined landmarks a Ha) as [pa ->].
  destruct (index_defined landmarks b Hb) as [pb ->].
  destruct (index_defined landmarks c Hc) as [pc ->].
  eauto.
Qed.

Lemma assignAngle_failed (angles : option (Js.object R)) (name : string) :
  assignAngle angles name None = None.
Proof. now destruct angles. Qed.

(** X17: the extractor returns the angles exactly when the landmark array
    has at least 29 entries (the highest index it reads is 28); on a
    shorter array it throws. *)
Theorem extractAnglesFromLandmarks_defined (landmarks : list Point3D) :
  (exists angles, extractAnglesFromLandmarks landmarks = Some angles)
  <-> (29 <= List.length landmarks)%nat.
Proof.
  split.
  - intros [angles Hsome].
    destruct (Nat.le_gt_cases 29 (List.length landmarks)) as [|Hshort];
      [assumption|].
    unfold extractAnglesFromLandmarks in Hsome.
    assert (Hlast :
      computeAngleAt landmarks PoseLandmarkIndices.RIGHT_HIP
        PoseLandmarkIndices.RIGHT_KNEE PoseLandmarkIndices.RIGHT_ANKLE
      = None).
    { unfold computeAngleAt.
      rewrite (index_undefined landmarks PoseLandmarkIndices.RIGHT_ANKLE)
        by (unfold PoseLandmarkIndices.RIGHT_ANKLE; lia).
      destruct (Js.index landmarks PoseLandmarkIndices.RIGHT_HIP);
        [|reflexivity].
      now destruct (Js.index landmarks PoseLandmarkIndices.RIGHT_KNEE). }
    cbv zeta in Hsome; rewrite Hlast, assignAngle_failed in Hsome.
    discriminate.
  - intros Hlen; unfold extractAnglesFromLandmarks; cbv zeta.
    repeat match goal with
      | |- context [computeAngleAt landmarks ?a ?b ?c] =>
          let v := fresh "v" in
          destruct (computeAngleAt_defined landmarks a b c) as [v ->];
          [ unfold_indices; lia | unfold_indices; lia
          | unfold_indices; lia | ]
      end.
    cbn [assignAngle]; eauto.
Qed.

Lemma extractAnglesFromLandmarks_defined_witness :
  exists angles,
    extractAnglesFromLandmarks Samples.standingLandmarks = Some angles.
Proof.
  apply (proj2 (extractAnglesFromLandmarks_defined Samples.standingLandmarks)).
  simpl; lia.
Defined.

(** X18: the extracted mapping has exactly the eight angle names, in the
    order they are set, every angle is in [0, 180], and all four
    left/right pairs of the symmetry are complete. *)
Theorem extractAnglesFromLandmarks_result
    (landmarks : list Point3D) (angles : Js.object R) :
  extractAnglesFromLandmarks landmarks = Some angles ->
  Js.keys angles = Spec.extractedNames
  /\ (forall k v, Js.get angles k = Some v -> 0 <= v <= 180)
  /\ List.length (Spec.completePairSymmetries angles) = 4%nat.
Proof.
  unfold extractAnglesFromLandmarks; cbv zeta.
  repeat match goal with
    | |- context [computeAngleAt landmarks ?a ?b ?c] =>
        let v := fresh "v" in
        let E := fresh "E" in
        destruct (computeAngleAt landmarks a b c) as [v|] eqn:E;
        [apply computeAngleAt_bounds in E
        | rewrite ?assignAngle_failed; discriminate]
    end.
  cbv [assignAngle Js.set String.eqb Ascii.eqb Bool.eqb].
  intros [= <-]; split; [reflexivity | split].
  - intros k w; cbn [Js.get].
    repeat match goal with
      | |- context [String.eqb ?n k] =>
          destruct (String.eqb n k); [now intros [= <-]|]
      end.
    discriminate.
  - reflexivity.
Qed.

Lemma extractAnglesFromLandmarks_result_witness :
  exists angles,
    extractAnglesFromLandmarks Samples.standingLandmarks = Some angles
    /\ Js.keys angles = Spec.extractedNames.
Proof.
  eexists; split; [reflexivity|].
  apply (extractAnglesFromLandmarks_result Samples.standingLandmarks).
  reflexivity.
Defined.

End Extraction.

(* ================================================================= *)
(** ** The challenge flow *)

Section Flow.

Import Scoring ChallengeFlow.

Lemma stabilities_unit (series : list (list R)) :
  forall v, In v (map Angles.stabilityScore series) -> 0 <= v <= 1.
Proof.
  intros v Hv; apply in_map_iff in Hv as (s & <- & _).
  rewrite stabilityScore_unfold.
  destruct (List.length s <? 2)%nat; [lra|].
  pose proof (sqrt_pos (Spec.populationVariance s)).
  unfold Spec.populationStdDev; split; [apply Rmax_l | apply Rmax_lub; lra].
Qed.

(** X19: completing a level always ends the hold and shows the summary,
    keeps the recorded frames and series, and reports a stability that is
    an integer between 0 and 100. *)
Theorem completeLevel_summary (currentPose : PoseData) (st : State) :
  let st' := completeLevel (Some currentPose) st in
  isHolding st' = false
  /\ showSummary st' = true
  /\ frameScoresRef st' = frameScoresRef st
  /\ angleTimeSeriesRef st' = angleTimeSeriesRef st
  /\ exists result n,
       sessionData st' = Some result
       /\ stability result = IZR n /\ (0 <= n <= 100)%Z.
Proof.
  cbv zeta; unfold completeLevel.
  cbn [isHolding showSummary frameScoresRef angleTimeSeriesRef sessionData].
  do 4 (split; [reflexivity|]).
  set (stabs := map Angles.stabilityScore (Js.values (angleTimeSeriesRef st))).
  assert (Hrange :
    exists n : Z,
      (if (0 <? List.length stabs)%nat
       then IZR (Js.round (fold_left (fun a b => a + b) stabs 0
                           / INR (List.length stabs) * 100))
       else 0) = IZR n
      /\ (0 <= n <= 100)%Z).
  { pose proof (stabilities_unit (Js.values (angleTimeSeriesRef st))) as Hu.
    fold stabs in Hu.
    destruct stabs as [|v vs].
    - exists 0%Z; split; [reflexivity | lia].
    - eexists; split; [reflexivity|].
      apply round_between.
      rewrite fold_left_plus_total, Rplus_0_l.
      pose proof (mean_bounds 0 1 (v :: vs) ltac:(discriminate) Hu) as Hm.
      unfold Spec.mean in Hm; lra. }
  destruct Hrange as (n & Hn & Hr).
  eexists; exists n; split; [reflexivity|].
  cbn [stability]; split; assumption.
Qed.

(** X20: a level completed right after a reset, with nothing recorded,
    reports accuracy, stability and symmetry 0, the grade Beginner and no
    feedback. *)
Theorem completeLevel_after_reset (currentPose : PoseData) (st : State) :
  sessionData (completeLevel (Some currentPose) (resetLevel st))
  = Some {| accuracy := 0;
            stability := 0;
            symmetry := 0;
            grade := Beginner;
            feedback := [] |}.
Proof.
  cbn; unfold Js.index; cbn.
  do 2 f_equal.
  unfold computeSessionScore, scoreToGrade; cbn.
  destruct (Rle_dec 80 0); [lra|].
  destruct (Rle_dec 60 0); [lra | reflexivity].
Qed.

Lemma recordAngle_other (angles : Js.object R)
    (series : Js.object (list R)) (k k' : string) :
  k' <> k ->
  Spec.seriesOf (recordAngle angles series k') k = Spec.seriesOf series k.
Proof.
  intros Hne; unfold recordAngle, Spec.seriesOf.
  destruct (Js.get series k') as [s|] eqn:Hs.
  - rewrite Hs; destruct (Js.get angles k'); [|reflexivity].
    now rewrite get_set_other.
  - rewrite get_set_same.
    destruct (Js.get angles k');
      rewrite ?get_set_other by assumption;
      now rewrite ?get_set_other by assumption.
Qed.

Lemma recordAngle_same (angles : Js.object R)
    (series : Js.object (list R)) (k : string) (v : R) :
  Js.get angles k = Some v ->
  Spec.seriesOf (recordAngle angles series k) k
  = (Spec.seriesOf series k ++ [v])%list.
Proof.
  intros Hv; unfold recordAngle, Spec.seriesOf.
  destruct (Js.get series k) as [s|] eqn:Hs.
  - now rewrite Hs, Hv, get_set_same.
  - now rewrite get_set_same, Hv, get_set_same.
Qed.

Lemma recordAngles_untouched (angles : Js.object R) (names : list string)
    (series : Js.object (list R)) (k : string) :
  ~ In k names ->
  Spec.seriesOf (fold_left (recordAngle angles) names series) k
  = Spec.seriesOf series k.
Proof.
  revert series; induction names as [|k' names IH]; intros series Hnin;
    [reflexivity|].
  cbn [fold_left]; rewrite IH by (intro; apply Hnin; now right).
  apply recordAngle_other; intros ->; apply Hnin; now left.
Qed.

Lemma recordAngles_pushed (angles : Js.object R) (names : list string)
    (series : Js.object (list R)) (k : string) (v : R) :
  NoDup names -> In k names -> Js.get angles k = Some v ->
  Spec.seriesOf (fold_left (recordAngle angles) names series) k
  = (Spec.seriesOf series k ++ [v])%list.
Proof.
  intros Hnd Hin Hv; revert series.
  induction names as [|k' names IH]; intros series; [destruct Hin|].
  inversion Hnd as [|? ? Hk' Hnd']; subst; cbn [fold_left].
  destruct Hin as [-> | Hin].
  - rewrite recordAngles_untouched by assumption.
    now apply recordAngle_same.
  - rewrite IH by assumption.
    f_equal; apply recordAngle_other; intros ->; contradiction.
Qed.

(** X21: during a hold a detected frame pushes, for every angle it
    carries, the value of the angle at the end of the series of that
    angle, and leaves the series of every other angle as it is. *)
Theorem handlePoseDetected_series
    (pose : PoseData) (stamp now : R) (angles : Js.object R) (st : State)
    (k : string) :
  isHolding st = true -> NoDup (Js.keys angles) ->
  Spec.seriesOf
    (angleTimeSeriesRef
       (handlePoseDetected (Some pose) stamp now angles st)) k
  = match Js.get angles k with
    | Some v => (Spec.seriesOf (angleTimeSeriesRef st) k ++ [v])%list
    | None => Spec.seriesOf (angleTimeSeriesRef st) k
    end.
Proof.
  intros Hhold Hnd; unfold handlePoseDetected; rewrite Hhold; cbn [negb].
  assert (Hseries :
    Spec.seriesOf
      (fold_left (recordAngle angles) (Js.keys angles)
         (angleTimeSeriesRef st)) k
    = match Js.get angles k with
      | Some v => (Spec.seriesOf (angleTimeSeriesRef st) k ++ [v])%list
      | None => Spec.seriesOf (angleTimeSeriesRef st) k
      end).
  { destruct (Js.get angles k) as [v|] eqn:Hv.
    - apply recordAngles_pushed; try assumption.
      eapply get_some_in_keys; eassumption.
    - apply recordAngles_untouched.
      intros Hin; apply in_keys_get in Hin as [v Hv']; congruence. }
  destruct (Rle_dec 100 _); exact Hseries.
Qed.

Lemma handlePoseDetected_series_witness :
  Spec.seriesOf
    (angleTimeSeriesRef
       (handlePoseDetected (Some Samples.treePose) 5 10
          [("left_knee_angle", 170)]%string (Samples.holdingState [])))
    "left_knee_angle"
  = [170].
Proof.
  rewrite (handlePoseDetected_series Samples.treePose 5 10
             [("left_knee_angle", 170)]%string (Samples.holdingState [])
             "left_knee_angle" eq_refl).
  - reflexivity.
  - repeat constructor; simpl; tauto.
Defined.

Lemma extractedNames_distinct : NoDup Spec.extractedNames.
Proof.
  unfold Spec.extractedNames.
  repeat constructor; simpl; intuition discriminate.
Qed.

(** X22: resetting a level puts the frame scores and the angle series in
    step, and every detected frame that carries the eight extracted
    angles keeps them in step: each of these angles has as many recorded
    samples as there are frame scores, whether the frame is ignored,
    recorded, or completes the level. *)
Theorem handlePoseDetected_in_step
    (currentPose : option PoseData) (stamp now : R)
    (angles : Js.object R) (st : State) :
  Spec.inStep (resetLevel st)
  /\ (Js.keys angles = Spec.extractedNames ->
      Spec.inStep st ->
      Spec.inStep (handlePoseDetected currentPose stamp now angles st)).
Proof.
  split; [intros k _; reflexivity|].
  intros Hkeys Hstep; unfold handlePoseDetected.
  destruct (isHolding st); cbn [negb]; [|assumption].
  destruct currentPose as [pose|]; [|assumption].
  intros k Hk.
  assert (Hlen :
    List.length
      (Spec.seriesOf
         (fold_left (recordAngle angles) (Js.keys angles)
            (angleTimeSeriesRef st)) k)
    = List.length
        (frameScoresRef st
         ++ [{| Scoring.score :=
                  similarity_score
                    (similarityScore angles (targetAngles pose)
                       (tolerances pose) (weights pose));
                timestamp := stamp;
                Scoring.angles := angles |}])%list).
  { assert (Hin : In k (Js.keys angles)) by now rewrite Hkeys.
    destruct (in_keys_get angles k Hin) as [v Hv].
    rewrite (recordAngles_pushed angles (Js.keys angles) _ k v);
      [|rewrite Hkeys; apply extractedNames_distinct | assumption
       | assumption].
    rewrite !length_app; cbn [List.length]; now rewrite Hstep. }
  destruct (Rle_dec 100 _); exact Hlen.
Qed.

Lemma inStep_nothing_recorded : Spec.inStep (Samples.holdingState []).
Proof. intros k _; reflexivity. Qed.

Lemma handlePoseDetected_in_step_witness :
  let first :=
    handlePoseDetected (Some Samples.treePose) 5 10 Samples.eightAngles
      (Samples.holdingState []) in
  let second :=
    handlePoseDetected (Some Samples.treePose) 30000 30000
      Samples.eightAngles first in
  (Spec.inStep first
   /\ List.length (frameScoresRef first) = 1%nat
   /\ isHolding first = true)
  /\ (Spec.inStep second
      /\ List.length (frameScoresRef second) = 2%nat
      /\ isHolding second = false).
Proof.
  intros first second.
  assert (Hfirst : Spec.inStep first).
  { apply (proj2 (handlePoseDetected_in_step (Some Samples.treePose) 5 10
                    Samples.eightAngles (Samples.holdingState [])));
      [reflexivity | apply inStep_nothing_recorded]. }
  assert (Hsecond : Spec.inStep second).
  { apply (proj2 (handlePoseDetected_in_step (Some Samples.treePose)
                    30000 30000 Samples.eightAngles first));
      [reflexivity | exact Hfirst]. }
  assert (Hrun :
    first
    = {| currentLevel := 0;
         cameraActive := true;
         isHolding := true;
         countdown := 0;
         holdProgress := 10 / (30 * 1000) * 100;
         liveSimilarity := liveSimilarity first;
         showSummary := false;
         frameScoresRef := frameScoresRef first;
         angleTimeSeriesRef := angleTimeSeriesRef first;
         startTimeRef := 0;
         sessionData := None |}
    /\ List.length (frameScoresRef first) = 1%nat).
  { unfold first, handlePoseDetected, holdDurationOf, Js.or_else.
    cbn [Samples.holdingState isHolding negb option_map hold_seconds
         Samples.treePose startTimeRef].
    destruct (Req_dec_T 30 0); [lra|].
    assert (Hp : (10 - 0) / (30 * 1000) * 100 = 10 / (30 * 1000) * 100)
      by field.
    assert (Hsmall : 10 / (30 * 1000) * 100 < 100)
      by (replace (10 / (30 * 1000) * 100) with (/ 30) by field; lra).
    rewrite Hp, Rmin_right by lra.
    destruct (Rle_dec 100 (10 / (30 * 1000) * 100)); [lra|].
    cbn [liveSimilarity frameScoresRef angleTimeSeriesRef currentLevel
         cameraActive countdown showSummary sessionData List.length app].
    split; reflexivity. }
  destruct Hrun as [Hshape Hone].
  split; [split; [exact Hfirst | split; [exact Hone|]]|].
  - rewrite Hshape; reflexivity.
  - split; [exact Hsecond|].
    unfold second; rewrite Hshape.
    unfold handlePoseDetected, holdDurationOf, Js.or_else.
    cbn [isHolding negb option_map hold_seconds Samples.treePose
         startTimeRef].
    destruct (Req_dec_T 30 0); [lra|].
    assert (Hp : (30000 - 0) / (30 * 1000) * 100 = 100) by field.
    rewrite Hp, Rmin_left by lra.
    destruct (Rle_dec 100 100); [|lra].
    cbn [completeLevel isHolding frameScoresRef].
    rewrite length_app, Hone; split; reflexivity.
Defined.

(** X23: during a hold on a pose with a positive hold time, the frame
    that arrives once the hold time has elapsed completes the level: the
    summary is shown and its accuracy is the live similarity of that very
    frame.  A frame that arrives earlier leaves the hold running and the
    session data as they are. *)
Theorem handlePoseDetected_completion
    (pose : PoseData) (stamp now : R) (angles : Js.object R) (st : State) :
  isHolding st = true -> 0 < hold_seconds pose ->
  let st' := handlePoseDetected (Some pose) stamp now angles st in
  (hold_seconds pose * 1000 <= now - startTimeRef st ->
   isHolding st' = false /\ showSummary st' = true
   /\ holdProgress st' = 100
   /\ exists result,
        sessionData st' = Some result
        /\ accuracy result = liveSimilarity st')
  /\ (now - startTimeRef st < hold_seconds pose * 1000 ->
      isHolding st' = true /\ showSummary st' = showSummary st
      /\ sessionData st' = sessionData st
      /\ holdProgress st' < 100).
Proof.
  intros Hhold Hpos; cbv zeta.
  unfold handlePoseDetected; rewrite Hhold; cbn [negb].
  assert (Hd : holdDurationOf (Some pose) = hold_seconds pose).
  { unfold holdDurationOf, Js.or_else; cbn [option_map].
    destruct (Req_dec_T (hold_seconds pose) 0); [lra | reflexivity]. }
  rewrite Hd.
  set (elapsed := now - startTimeRef st).
  assert (Hratio :
    elapsed / (hold_seconds pose * 1000) * 100 - 100
    = (elapsed - hold_seconds pose * 1000) * (/ (hold_seconds pose) * / 10))
    by (field; lra).
  assert (Hinv : 0 < / hold_seconds pose * / 10).
  { apply Rmult_lt_0_compat; apply Rinv_0_lt_compat; lra. }
  split; intros Helapsed.
  - assert (Hge : 100 <= elapsed / (hold_seconds pose * 1000) * 100).
    { assert (0 <= (elapsed - hold_seconds pose * 1000)
                    * (/ hold_seconds pose * / 10))
        by (apply Rmult_le_pos; lra).
      lra. }
    rewrite Rmin_left by assumption.
    destruct (Rle_dec 100 100); [|lra].
    cbn [completeLevel isHolding showSummary holdProgress sessionData
         liveSimilarity frameScoresRef].
    repeat split.
    eexists; split; [reflexivity|].
    cbn [accuracy]; now rewrite index_last.
  - assert (Hlt : elapsed / (hold_seconds pose * 1000) * 100 < 100).
    { assert ((elapsed - hold_seconds pose * 1000)
              * (/ hold_seconds pose * / 10) < 0).
      { rewrite Rmult_comm.
        replace 0 with (/ hold_seconds pose * / 10 * 0) by ring.
        apply Rmult_lt_compat_l; lra. }
      lra. }
    rewrite Rmin_right by lra.
    destruct (Rle_dec 100 _); [lra|].
    cbn [isHolding showSummary holdProgress sessionData].
    repeat split; assumption.
Qed.

Lemma handlePoseDetected_completion_witness :
  let st' :=
    handlePoseDetected (Some Samples.treePose) 30000 30000
      [("left_knee_angle", 170)]%string (Samples.holdingState []) in
  isHolding st' = false /\ showSummary st' = true.
Proof.
  destruct (handlePoseDetected_completion Samples.treePose 30000 30000
              [("left_knee_angle", 170)]%string (Samples.holdingState [])
              eq_refl) as [Hdone _].
  - simpl; lra.
  - destruct Hdone as (Hh & Hs & _); [simpl; lra|].
    split; assumption.
Defined.

(** X24: the pose of the current level, when there is one, is the first
    pose of the library with the slug of that level; past the last level
    there is no current pose. *)
Theorem currentPoseOf_slug
    (challengeLevels : list ChallengeLevel) (poseLibrary : list PoseData)
    (currentLevel : nat) :
  (forall pose,
     currentPoseOf challengeLevels poseLibrary currentLevel = Some pose ->
     In pose poseLibrary
     /\ exists l,
          nth_error challengeLevels currentLevel = Some l
          /\ slug pose = level_slug l)
  /\ ((List.length challengeLevels <= currentLevel)%nat ->
      currentPoseOf challengeLevels poseLibrary currentLevel = None).
Proof.
  unfold currentPoseOf; split.
  - intros pose Hfind; apply find_some in Hfind as [Hin Hslug].
    split; [assumption|].
    destruct (nth_error challengeLevels currentLevel) as [l|];
      [|discriminate].
    exists l; split; [reflexivity | now apply String.eqb_eq].
  - intros Hpast; apply nth_error_None in Hpast; rewrite Hpast.
    induction poseLibrary as [|p ps IH]; [reflexivity | exact IH].
Qed.

Lemma currentPoseOf_slug_witness :
  currentPoseOf Samples.twoLevels [Samples.treePose] 5 = None
  /\ In Samples.treePose [Samples.treePose].
Proof.
  split.
  - apply (proj2 (currentPoseOf_slug Samples.twoLevels [Samples.treePose] 5)).
    simpl; lia.
  - apply (proj1 (currentPoseOf_slug Samples.twoLevels [Samples.treePose] 0)
             Samples.treePose).
    reflexivity.
Defined.

Lemma applyAction_level (challengeLevels : list ChallengeLevel)
    (st : State) (a : Spec.LevelAction) :
  currentLevel (Spec.applyAction challengeLevels st a)
  = if (Z.of_nat (currentLevel st)
        <? Z.of_nat (List.length challengeLevels) - 1)%Z
    then (currentLevel st + 1)%nat
    else currentLevel st.
Proof.
  destruct a; unfold Spec.applyAction, handleNextLevel, handleSkipLevel;
    cbn [resetLevel withLevel currentLevel];
    now destruct (_ <? _)%Z.
Qed.

(** X25: whatever sequence of "next level" and "skip" is played, the
    current level never decreases and, once inside the list of levels,
    stays inside it; "next level" calls [onComplete] exactly on the last
    level (or past it). *)
Theorem level_stays_in_range
    (challengeLevels : list ChallengeLevel) (actions : list Spec.LevelAction)
    (st : State) :
  let st' := fold_left (Spec.applyAction challengeLevels) actions st in
  (currentLevel st <= currentLevel st')%nat
  /\ ((currentLevel st < List.length challengeLevels)%nat ->
      (currentLevel st' < List.length challengeLevels)%nat)
  /\ (snd (handleNextLevel challengeLevels st) = true
      <-> (List.length challengeLevels <= currentLevel st + 1)%nat).
Proof.
  cbv zeta; split; [|split].
  - revert st; induction actions as [|a actions IH]; intros st;
      [apply Nat.le_refl|].
    cbn [fold_left]; eapply Nat.le_trans; [|apply IH].
    rewrite applyAction_level; destruct (_ <? _)%Z; lia.
  - revert st; induction actions as [|a actions IH]; intros st Hin;
      [assumption|].
    cbn [fold_left]; apply IH.
    rewrite applyAction_level.
    destruct (Z.ltb_spec (Z.of_nat (currentLevel st))
                (Z.of_nat (List.length challengeLevels) - 1)); lia.
  - unfold handleNextLevel; cbn [resetLevel withLevel currentLevel].
    destruct (Z.ltb_spec (Z.of_nat (currentLevel st))
                (Z.of_nat (List.length challengeLevels) - 1));
      cbn [snd]; split; intros; try discriminate; try reflexivity; lia.
Qed.

Lemma level_stays_in_range_witness :
  (currentLevel
     (fold_left (Spec.applyAction Samples.twoLevels)
        [Spec.NextLevel; Spec.SkipLevel; Spec.NextLevel]
        (Samples.holdingState []))
   < List.length Samples.twoLevels)%nat.
Proof.
  apply (level_stays_in_range Samples.twoLevels
           [Spec.NextLevel; Spec.SkipLevel; Spec.NextLevel]
           (Samples.holdingState [])).
  simpl; lia.
Defined.

End Flow.
